(** * The Boltzmann wealth model of docs/tutorials/visualization_tutorial.ipynb

    A shallow embedding of [compute_gini], [MoneyAgent] and [MoneyModel].
    Python objects mutated in place become one explicit store (the model
    state); a Python exception becomes a result [inl e] that keeps the
    store as it was when the exception was raised.  Python integers are
    [Z], true division [/] is exact division over [Q]. *)

From Stdlib Require Import ZArith QArith Lia.
From stdpp Require Import base option list gmap sorting strings.

Close Scope Q_scope.
Open Scope Z_scope.

(** ** Data model *)

Abbreviation Coordinate := (Z * Z)%type.

(** An agent is named by its creation index in [model.agents]. *)
Abbreviation AgentId := nat.

Inductive Exc : Type :=
| IndexError          (* random.choice on an empty sequence *)
| ZeroDivisionError   (* int / int with a zero divisor *)
| TypeError           (* unpacking a position that is None *)
| ValueError          (* empty range of integers, non-positive grid size *)
| OutOfBounds         (* position outside a bounded grid *)
| ContractViolation.  (* an agent that is not in the population *)

Record Agent : Type := mkAgent {
  pos : option Coordinate;
  wealth : Z
}.

Record MultiGrid : Type := mkGrid {
  width : Z;
  height : Z;
  torus : bool;
  cells : gmap Coordinate (list AgentId)
}.

Record DataCollector : Type := mkCollector {
  model_vars : list Q;                       (* the "Gini" series *)
  agent_vars : list (list (AgentId * Z))     (* one "Wealth" table per capture *)
}.

(** ** The random source

    Modelled from the spec: the seedable pseudo-random source of the model
    (3), created outside the notebook.  Both generators of a model
    ([model.random], a [random.Random], and [model.rng], a numpy generator)
    are used through bounded integer draws only.  A generator is any state
    machine whose draw below [n] is below [n]. *)

Record Generator : Type := mkGenerator {
  gen_state : Type;
  gen_seed : Z → gen_state;
  gen_below : nat → gen_state → nat * gen_state;
  gen_below_lt : ∀ n g, (0 < n)%nat → ((gen_below n g).1 < n)%nat
}.

(** A generator that replays a tape of draws, each reduced modulo the bound;
    an exhausted tape draws 0.  The seed is the first draw of the tape. *)
Definition tape_below (n : nat) (t : list nat) : nat * list nat :=
  match t with
  | [] => (0%nat, [])
  | d :: t' => ((d mod n)%nat, t')
  end.

Definition tape : Generator :=
  {| gen_state := list nat;
     gen_seed := λ s, [Z.to_nat s];
     gen_below := tape_below;
     gen_below_lt := λ n t Hn,
       match t return ((tape_below n t).1 < n)%nat with
       | [] => Hn
       | d :: _ => Nat.mod_upper_bound d n (proj2 (Nat.neq_0_lt_0 n) Hn)
       end |}.

(** ** Python's random.Random on top of bounded draws *)

Section Random.
Context (R : Generator) {A : Type}.

(** [random.choice(seq)]: IndexError on an empty sequence, otherwise
    [seq[randbelow(len(seq))]]. *)
Definition choice (seq : list A) (g : gen_state R) : Exc + (A * gen_state R) :=
  match seq with
  | [] => inl IndexError
  | _ :: _ =>
      let '(i, g') := gen_below R (length seq) g in
      match seq !! i with
      | Some x => inr (x, g')
      | None => inl IndexError
      end
  end.

(** [x[i], x[j] = x[j], x[i]] *)
Definition swap (x : list A) (i j : nat) : list A :=
  match x !! i, x !! j with
  | Some a, Some b => <[i:=b]> (<[j:=a]> x)
  | _, _ => x
  end.

(** [for i in reversed(range(1, len(x))): j = randbelow(i + 1); swap] *)
Fixpoint shuffle_from (i : nat) (x : list A) (g : gen_state R)
  : list A * gen_state R :=
  match i with
  | O => (x, g)
  | S i' =>
      let '(j, g') := gen_below R (S i) g in
      shuffle_from i' (swap x i j) g'
  end.

(** [random.shuffle(x)] *)
Definition shuffle (x : list A) (g : gen_state R) : list A * gen_state R :=
  shuffle_from (length x - 1) x g.
End Random.

(** [rng.integers(low, high, size=(n,))]: [n] draws from [low, high). *)
Fixpoint integers (G : Generator) (low high : Z) (n : nat) (g : gen_state G)
  : list Z * gen_state G :=
  match n with
  | O => ([], g)
  | S n' =>
      let '(d, g') := gen_below G (Z.to_nat (high - low)) g in
      let '(ds, g'') := integers G low high n' g' in
      ((low + Z.of_nat d) :: ds, g'')
  end.

(** ** The grid (mesa.space.MultiGrid) *)

Definition in_bounds (g : MultiGrid) (p : Coordinate) : bool :=
  (0 <=? p.1) && (p.1 <? width g) && (0 <=? p.2) && (p.2 <? height g).

(** Modelled from the spec: the boundary policy of SpatialIndex (4.1), absent
    from the notebook.  A toroidal grid normalizes coordinates modulo
    width/height; a bounded grid fails with OutOfBounds outside
    [0,width) x [0,height). *)
Definition torus_adj (g : MultiGrid) (p : Coordinate) : Exc + Coordinate :=
  if torus g then inr (p.1 mod width g, p.2 mod height g)
  else if in_bounds g p then inr p
  else inl OutOfBounds.

(** Modelled from the spec: [contents(position)] of SpatialIndex (4.1), the
    agents currently at a position, empty if none. *)
Definition contents (g : MultiGrid) (p : Coordinate) : list AgentId :=
  default [] (cells g !! p).

Definition set_cell (g : MultiGrid) (p : Coordinate) (l : list AgentId) : MultiGrid :=
  {| width := width g; height := height g; torus := torus g;
     cells := <[p:=l]> (cells g) |}.

(** Insertion into a cell has set semantics: an agent is listed once. *)
Definition cell_add (g : MultiGrid) (p : Coordinate) (a : AgentId) : MultiGrid :=
  if decide (a ∈ contents g p) then g
  else set_cell g p (contents g p ++ [a]).

Definition cell_remove (g : MultiGrid) (p : Coordinate) (a : AgentId) : MultiGrid :=
  set_cell g p (filter (λ b, b ≠ a) (contents g p)).

(** What is fixed at construction: the extent and the boundary policy. *)
Definition shape (g : MultiGrid) : Z * Z * bool := (width g, height g, torus g).

(** The offsets of a square of the given radius, first coordinate outermost. *)
Definition offsets (radius : nat) : list (Z * Z) :=
  let r := seqZ (- Z.of_nat radius) (2 * Z.of_nat radius + 1) in
  dx ← r; dy ← r; [(dx, dy)].

(** Modelled from the spec: [neighborhood(position, radius, include_center)]
    of SpatialIndex (4.1), absent from the notebook: the set of positions at
    Chebyshev distance at most [radius], the boundary policy applied per
    coordinate (wrapped on a torus, clipped on a bounded grid), the center
    optionally excluded.  The set is listed without repetition. *)
Definition get_neighborhood (g : MultiGrid) (p : Coordinate)
    (include_center : bool) (radius : nat) : list Coordinate :=
  let raw := (λ d : Z * Z, (p.1 + d.1, p.2 + d.2)) <$> offsets radius in
  let adj :=
    if torus g then (λ q : Coordinate, (q.1 mod width g, q.2 mod height g)) <$> raw
    else filter (λ q, in_bounds g q = true) raw in
  let set := remove_dups adj in
  if include_center then set else filter (λ q, q ≠ p) set.

(** ** The model state and the monad of model operations *)

Section Engine.
Context (R G : Generator).

Record Model : Type := mkModel {
  num_agents : nat;
  agents : list Agent;
  grid : MultiGrid;
  random : gen_state R;          (* model.random, shared by all agents *)
  rng : gen_state G;             (* model.rng, used at construction *)
  datacollector : DataCollector
}.

Definition set_agents (l : list Agent) (m : Model) : Model :=
  mkModel (num_agents m) l (grid m) (random m) (rng m) (datacollector m).
Definition set_grid (g : MultiGrid) (m : Model) : Model :=
  mkModel (num_agents m) (agents m) g (random m) (rng m) (datacollector m).
Definition set_random (r : gen_state R) (m : Model) : Model :=
  mkModel (num_agents m) (agents m) (grid m) r (rng m) (datacollector m).
Definition set_rng (r : gen_state G) (m : Model) : Model :=
  mkModel (num_agents m) (agents m) (grid m) (random m) r (datacollector m).
Definition set_datacollector (d : DataCollector) (m : Model) : Model :=
  mkModel (num_agents m) (agents m) (grid m) (random m) (rng m) d.

(** A computation returns a value or raises, and leaves a store either way. *)
Definition M (A : Type) : Type := Model → (Exc + A) * Model.

Definition ret {A} (x : A) : M A := λ m, (inr x, m).
Definition raise {A} (e : Exc) : M A := λ m, (inl e, m).
Definition bind {A B} (c : M A) (k : A → M B) : M B :=
  λ m, match c m with
       | (inr x, m') => k x m'
       | (inl e, m') => (inl e, m')
       end.
Definition get : M Model := λ m, (inr m, m).
Definition modify (f : Model → Model) : M unit := λ m, (inr tt, f m).
Definition lift {A} (r : Exc + A) : M A := λ m, (r, m).

Notation "x <~ c ;; k" := (bind c (λ x, k))
  (at level 100, c at next level, right associativity).
Notation "c >> k" := (bind c (λ _, k))
  (at level 100, right associativity).

Fixpoint for_each {A} (l : list A) (f : A → M unit) : M unit :=
  match l with
  | [] => ret tt
  | x :: l' => f x >> for_each l' f
  end.

(** Reading and writing the attributes of an agent object. *)
Definition agent (a : AgentId) : M Agent :=
  λ m, match agents m !! a with
       | Some ag => (inr ag, m)
       | None => (inl ContractViolation, m)
       end.

Definition set_pos (a : AgentId) (p : option Coordinate) : M unit :=
  ag <~ agent a ;;
  modify (λ m, set_agents (<[a := mkAgent p (wealth ag)]> (agents m)) m).

Definition set_wealth (a : AgentId) (w : Z) : M unit :=
  ag <~ agent a ;;
  modify (λ m, set_agents (<[a := mkAgent (pos ag) w]> (agents m)) m).

Definition self_pos (a : AgentId) : M Coordinate :=
  ag <~ agent a ;;
  match pos ag with
  | Some p => ret p
  | None => raise TypeError
  end.

Definition random_choice {A} (seq : list A) : M A :=
  λ m, match choice R seq (random m) with
       | inl e => (inl e, m)
       | inr (x, g') => (inr x, set_random g' m)
       end.

(** Modelled from the spec: [place(agent_id, position)] of SpatialIndex
    (4.1): the position is normalized by the boundary policy, the agent is
    inserted into the cell and the position is recorded on the agent. *)
Definition place_agent (a : AgentId) (p : Coordinate) : M unit :=
  m <~ get ;;
  p' <~ lift (torus_adj (grid m) p) ;;
  _ <~ agent a ;;
  modify (λ m, set_grid (cell_add (grid m) p' a) m) >>
  set_pos a (Some p').

(** Modelled from the spec: [move(agent_id, new_position)] of SpatialIndex
    (4.1): the agent leaves its current cell and enters the new one, with
    the bounds handling of [place]. *)
Definition move_agent (a : AgentId) (p : Coordinate) : M unit :=
  m <~ get ;;
  p' <~ lift (torus_adj (grid m) p) ;;
  ag <~ agent a ;;
  match pos ag with
  | Some q => modify (λ m, set_grid (cell_remove (grid m) q a) m)
  | None => ret tt
  end >>
  modify (λ m, set_grid (cell_add (grid m) p' a) m) >>
  set_pos a (Some p').

(** Modelled from the spec: the [contents] (4.1) of the listed positions,
    one after the other. *)
Definition get_cell_list_contents (ps : list Coordinate) : M (list AgentId) :=
  m <~ get ;; ret (p ← ps; contents (grid m) p).

(** ** compute_gini *)

(** Python's [sum]: a left fold from 0. *)
Definition sum (l : list Z) : Z := fold_left Z.add l 0.

(** Python's [sorted] on integers: ascending. *)
Definition sorted (l : list Z) : list Z := merge_sort Z.le l.

(** [compute_gini(model)].  The divisor [N * sum(x)] is an integer: a zero
    divisor raises.  The two divisions are exact: the value is the rational
    number that the binary64 result of the code approximates, and rounding
    is not modelled. *)
Definition compute_gini (m : Model) : Exc + Q :=
  let agent_wealths := wealth <$> agents m in
  let x := sorted agent_wealths in
  let N := Z.of_nat (num_agents m) in
  let num := sum (imap (λ i xi, xi * (N - Z.of_nat i)) x) in
  let den := N * sum x in
  if decide (den = 0) then inl ZeroDivisionError else
  let B := (inject_Z num / inject_Z den)%Q in
  if decide (N = 0) then inl ZeroDivisionError else
  inr (1 + 1 / inject_Z N - 2 * B)%Q.

(** ** MoneyAgent *)

(** [MoneyAgent.__init__]: wealth 1, not yet on the grid. *)
Definition MoneyAgent_new : Agent := {| pos := None; wealth := 1 |}.

(** [MoneyAgent.move]: the draw is taken from the neighbourhood as it is,
    without a test for emptiness. *)
Definition MoneyAgent_move (self : AgentId) : M unit :=
  m <~ get ;;
  p <~ self_pos self ;;
  let possible_steps := get_neighborhood (grid m) p false 1 in
  new_position <~ random_choice possible_steps ;;
  move_agent self new_position.

(** [MoneyAgent.give_money]: the receiver is drawn from all agents of the
    cell; [other.wealth += 1] runs before [self.wealth -= 1]. *)
Definition MoneyAgent_give_money (self : AgentId) : M unit :=
  p <~ self_pos self ;;
  cellmates <~ get_cell_list_contents [p] ;;
  if decide (1 < length cellmates)%nat then
    other <~ random_choice cellmates ;;
    o <~ agent other ;;
    set_wealth other (wealth o + 1) >>
    (s <~ agent self ;;
     set_wealth self (wealth s - 1))
  else ret tt.

(** [MoneyAgent.step] *)
Definition MoneyAgent_step (self : AgentId) : M unit :=
  MoneyAgent_move self >>
  (s <~ agent self ;;
   if decide (0 < wealth s) then MoneyAgent_give_money self else ret tt).

(** ** DataCollector and MoneyModel *)

(** Modelled from the spec: [collect(model)] of MetricsCollector (4.4): the
    model reporter "Gini" is computed and appended to its series, then the
    agent reporter "Wealth" is recorded for every agent; the model is not
    changed otherwise. *)
Definition collect : M unit :=
  m <~ get ;;
  gini <~ lift (compute_gini m) ;;
  let dc := datacollector m in
  let table := imap (λ i a, (i, wealth a)) (agents m) in
  modify (set_datacollector
            {| model_vars := model_vars dc ++ [gini];
               agent_vars := agent_vars dc ++ [table] |}).

(** The order in which one tick activates the agents. *)
Definition activation_order (m : Model) : list AgentId :=
  (shuffle R (seq 0 (length (agents m))) (random m)).1.

(** Modelled from the spec: [agents.shuffle_do] (4.3): a permutation of the
    population is drawn from the shared random source, then the operation
    is invoked on each agent in that order, sequentially. *)
Definition shuffle_do (f : AgentId → M unit) : M unit :=
  m <~ get ;;
  let '(order, g') := shuffle R (seq 0 (length (agents m))) (random m) in
  modify (set_random g') >>
  for_each order f.

(** [MoneyModel.step] *)
Definition MoneyModel_step : M unit :=
  shuffle_do MoneyAgent_step >>
  collect.

(** The model before the agents are placed: both generators seeded from
    the seed (the random source is seeded once at construction, spec 3),
    [num_agents] set, an empty toroidal grid, [n] agents of wealth 1 and an
    empty collector. *)
Definition MoneyModel_blank (n : nat) (w h : Z) (seed : Z) : Model :=
  {| num_agents := n;
     agents := replicate n MoneyAgent_new;
     grid := {| width := w; height := h; torus := true; cells := ∅ |};
     random := gen_seed R seed;
     rng := gen_seed G seed;
     datacollector := {| model_vars := []; agent_vars := [] |} |}.

(** [MoneyModel.__init__(n, width, height, seed)].  A grid without cells is
    refused: the range of [rng.integers(0, width)] would be empty.  The
    object exists only if the constructor returns. *)
Definition MoneyModel_init (n : nat) (w h : Z) (seed : Z) : Exc + Model :=
  if decide (w ≤ 0 ∨ h ≤ 0) then inl ValueError else
  let m0 := MoneyModel_blank n w h seed in
  let '(x, g1) := integers G 0 w n (rng m0) in
  let '(y, g2) := integers G 0 h n g1 in
  let body :=
    for_each (zip (seq 0 n) (zip x y)) (λ aij, place_agent aij.1 aij.2) >>
    collect in
  match body (set_rng g2 m0) with
  | (inr _, m) => inr m
  | (inl e, _) => inl e
  end.

(** The store after one call to [step], whether it returned or raised. *)
Definition after_step (m : Model) : Model := (MoneyModel_step m).2.

(** The states a caller can observe: a constructed model, and any state
    left by a call to [step]. *)
Inductive reachable : Model → Prop :=
| reach_init n w h seed m :
    MoneyModel_init n w h seed = inr m → reachable m
| reach_step m :
    reachable m → reachable (after_step m).

Definition total_wealth (m : Model) : Z := sum (wealth <$> agents m).

End Engine.


Arguments num_agents {R G} m.
Arguments agents {R G} m.
Arguments grid {R G} m.
Arguments random {R G} m.
Arguments rng {R G} m.
Arguments datacollector {R G} m.
Arguments mkModel {R G}.
Arguments set_agents {R G}.
Arguments set_grid {R G}.
Arguments set_random {R G}.
Arguments set_rng {R G}.
Arguments set_datacollector {R G}.
Arguments ret {R G A}.
Arguments raise {R G A}.
Arguments bind {R G A B}.
Arguments get {R G}.
Arguments modify {R G}.
Arguments lift {R G A}.
Arguments for_each {R G A}.
Arguments agent {R G}.
Arguments set_pos {R G}.
Arguments set_wealth {R G}.
Arguments self_pos {R G}.
Arguments random_choice {R G A}.
Arguments place_agent {R G}.
Arguments move_agent {R G}.
Arguments get_cell_list_contents {R G}.
Arguments compute_gini {R G}.
Arguments MoneyAgent_move {R G}.
Arguments MoneyAgent_give_money {R G}.
Arguments MoneyAgent_step {R G}.
Arguments collect {R G}.
Arguments activation_order {R G}.
Arguments shuffle_do {R G}.
Arguments MoneyModel_step {R G}.
Arguments after_step {R G}.
Arguments reachable {R G}.
Arguments total_wealth {R G}.

(** The formula of the inequality coefficient in the words of the spec
    (4.4): for x[0..N-1], B = (Σ_{i=0}^{N-1} x[i]·(N−i)) / (N·Σx) and the
    coefficient is 1 + 1/N − 2B. *)
Fixpoint Sigma (n : nat) (f : nat → Z) : Z :=
  match n with
  | O => 0
  | S n' => Sigma n' f + f n'
  end.

Definition gini_formula (x : list Z) : Q :=
  let N := length x in
  let xi := λ i, nth i x 0 in
  let num := Sigma N (λ i, xi i * (Z.of_nat N - Z.of_nat i)) in
  let den := Z.of_nat N * Sigma N xi in
  let B := (inject_Z num / inject_Z den)%Q in
  (1 + 1 / inject_Z (Z.of_nat N) - 2 * B)%Q.

(** The store after [k] calls to [step]. *)
Definition after_steps {R G} (k : nat) (m : Model R G) : Model R G :=
  Nat.iter k after_step m.

(** What an observer sees of a model at a tick: positions and wealth of the
    agents, and the collected series. *)
Definition snapshot {R G} (m : Model R G) : list Agent * DataCollector :=
  (agents m, datacollector m).

Fixpoint trajectory {R G} (k : nat) (m : Model R G)
  : list (list Agent * DataCollector) :=
  snapshot m ::
  match k with
  | O => []
  | S k' => trajectory k' (after_step m)
  end.

Definition wealths {R G} (m : Model R G) : list Z := wealth <$> agents m.

(** A computation that leaves an observation of the store as it found it,
    also when it raises. *)
Definition keeps {R G A X} (obs : Model R G → X) (c : M R G A) : Prop :=
  ∀ m, obs (c m).2 = obs m.

(** A computation that maintains a property of the store, also when it
    raises. *)
Definition preserves {R G A} (P : Model R G → Prop) (c : M R G A) : Prop :=
  ∀ m, P m → P (c m).2.

(** [other.wealth += 1] and [self.wealth -= 1] on the list of agents; the
    second reads the list the first has written. *)
Definition credit (other : AgentId) (l : list Agent) : list Agent :=
  match l !! other with
  | Some o => <[other := mkAgent (pos o) (wealth o + 1)]> l
  | None => l
  end.

Definition debit (self : AgentId) (l : list Agent) : list Agent :=
  match l !! self with
  | Some s => <[self := mkAgent (pos s) (wealth s - 1)]> l
  | None => l
  end.

(** Every wealth is at least 0. *)
Definition nonneg {R G} (m : Model R G) : Prop :=
  Forall (λ w, 0 ≤ w) (wealths m).

(** ** Instances

    Models over the tape generator. *)

(** [MoneyModel(n=2, width=10, height=10, seed=0)]: both agents on (0,0). *)
Definition crowded : Model tape tape :=
  {| num_agents := 2;
     agents := [mkAgent (Some (0, 0)) 1; mkAgent (Some (0, 0)) 1];
     grid := mkGrid 10 10 true {[ (0, 0) := [0%nat; 1%nat] ]};
     random := ([0%nat] : gen_state tape);
     rng := ([] : gen_state tape);
     datacollector := mkCollector [(0 # 8)%Q] [[(0%nat, 1); (1%nat, 1)]] |}.

(** [MoneyModel(n=2, width=2, height=1)] with both agents on (0,0), before a
    tick whose draws are 1 (shuffle), 0 and 0 (the two moves) and 1 (the
    receiver). *)
Definition narrow : Model tape tape :=
  {| num_agents := 2;
     agents := [mkAgent (Some (0, 0)) 1; mkAgent (Some (0, 0)) 1];
     grid := mkGrid 2 1 true {[ (0, 0) := [0%nat; 1%nat] ]};
     random := ([1; 0; 0; 1]%nat : gen_state tape);
     rng := ([] : gen_state tape);
     datacollector := mkCollector [(0 # 8)%Q] [[(0%nat, 1); (1%nat, 1)]] |}.

(** [MoneyModel(n=1, width=1, height=1, seed=0)]: a grid of one cell. *)
Definition lonely : Model tape tape :=
  {| num_agents := 1;
     agents := [mkAgent (Some (0, 0)) 1];
     grid := mkGrid 1 1 true {[ (0, 0) := [0%nat] ]};
     random := ([0%nat] : gen_state tape);
     rng := ([] : gen_state tape);
     datacollector := mkCollector [0%Q] [[(0%nat, 1)]] |}.

(** Three agents of wealth 2, 0 and 1. *)
Definition uneven : Model tape tape :=
  {| num_agents := 3;
     agents := [mkAgent (Some (0, 0)) 2; mkAgent (Some (0, 0)) 0;
                mkAgent (Some (3, 4)) 1];
     grid := mkGrid 10 10 true {[ (0, 0) := [0%nat; 1%nat]; (3, 4) := [2%nat] ]};
     random := ([] : gen_state tape);
     rng := ([] : gen_state tape);
     datacollector := mkCollector [] [] |}.

(** One agent of wealth 0. *)
Definition broke : Model tape tape :=
  {| num_agents := 1;
     agents := [mkAgent (Some (0, 0)) 0];
     grid := mkGrid 10 10 true {[ (0, 0) := [0%nat] ]};
     random := ([] : gen_state tape);
     rng := ([] : gen_state tape);
     datacollector := mkCollector [] [] |}.

(** ** The portrayal of an agent (Part 2 and Part 3 of the notebook) *)

(** The dictionary with the keys "size" and "color". *)
Module Portrayal.
Record t : Type := mk { size : Z; color : string }.
End Portrayal.

(** [agent_portrayal(agent)] *)
Definition agent_portrayal (agent : Agent) : Portrayal.t :=
  let size := 10 in
  let color := "tab:red" in
  let '(size, color) :=
    if decide (0 < wealth agent) then (50, "tab:blue") else (size, color) in
  {| Portrayal.size := size; Portrayal.color := color |}.

(** [wealth_vals = [agent.wealth for agent in model.agents]], the values the
    Histogram component bins. *)
Definition Histogram_wealth_vals {R G} (m : Model R G) : list Z :=
  wealth <$> agents m.

(** [model_params]: the slider for "n" and the fixed width and height. *)
Record SliderInt : Type := mkSlider {
  slider_value : nat;
  slider_label : string;
  slider_min : nat;
  slider_max : nat;
  slider_step : nat
}.

Record ModelParams : Type := mkParams {
  param_n : SliderInt;
  param_width : Z;
  param_height : Z
}.

Definition model_params : ModelParams :=
  {| param_n := mkSlider 50 "Number of agents:" 10 100 1;
     param_width := 10;
     param_height := 10 |}.

(** ** Notions used to state what the model keeps *)

(** The sum over [enumerate(x)] of [compute_gini], for a first weight [k]. *)
Definition weighted (k : Z) (l : list Z) : Z :=
  sum (imap (λ i xi, xi * (k - Z.of_nat i)) l).

(** The agents and the grid agree: the grid is a torus with cells; an agent
    that has a position stands inside the grid and is listed in the cell
    of its position; a cell lists only agents that stand on it, each once. *)
Definition consistent (l : list Agent) (g : MultiGrid) : Prop :=
  torus g = true ∧ 0 < width g ∧ 0 < height g ∧
  (∀ a ag p, l !! a = Some ag → pos ag = Some p →
     in_bounds g p = true ∧ a ∈ contents g p) ∧
  (∀ a p, a ∈ contents g p → ∃ ag, l !! a = Some ag ∧ pos ag = Some p) ∧
  (∀ p, NoDup (contents g p)).

(** Every agent has a position. *)
Definition placed (l : list Agent) : Prop :=
  Forall (λ ag, is_Some (pos ag)) l.

Definition wf {R G} (m : Model R G) : Prop :=
  consistent (agents m) (grid m) ∧ placed (agents m).

(** The grid after an agent has left its cell, if it had one. *)
Definition vacate (g : MultiGrid) (a : AgentId) (ag : Agent) : MultiGrid :=
  match pos ag with
  | Some q => cell_remove g q a
  | None => g
  end.

(** The store after agent [a], whose record was [ag], has been put on [q]. *)
Definition relocate {R G} (a : AgentId) (ag : Agent) (q : Coordinate)
    (m : Model R G) : Model R G :=
  set_agents (<[a := mkAgent (Some q) (wealth ag)]> (agents m))
    (set_grid (cell_add (vacate (grid m) a ag) q a) m).

(** The part of an agent's step that follows the move. *)
Definition after_move {R G} (self : AgentId) : M R G () :=
  bind (agent self)
    (λ s, if decide (0 < wealth s) then MoneyAgent_give_money self else ret ()).

(** ** Generators that answer alike

    What a run can depend on of its random sources is the values they
    answer.  A relation between the states of two generators is a draw
    bisimulation when related states answer every bounded draw with the
    same value and move to related states. *)
Definition draw_bisimulation (R1 R2 : Generator)
    (S : gen_state R1 → gen_state R2 → Prop) : Prop :=
  ∀ g1 g2, S g1 g2 → ∀ n,
    (gen_below R1 n g1).1 = (gen_below R2 n g2).1 ∧
    S (gen_below R1 n g1).2 (gen_below R2 n g2).2.

(** Two stores that differ at most in the states of their generators, which
    are related. *)
Definition alike {R1 G1 R2 G2}
    (SR : gen_state R1 → gen_state R2 → Prop)
    (SG : gen_state G1 → gen_state G2 → Prop)
    (m1 : Model R1 G1) (m2 : Model R2 G2) : Prop :=
  num_agents m1 = num_agents m2 ∧ agents m1 = agents m2 ∧
  grid m1 = grid m2 ∧ datacollector m1 = datacollector m2 ∧
  SR (random m1) (random m2) ∧ SG (rng m1) (rng m2).

(** Both raise the same error, or both return, with related values. *)
Definition same_outcome {A1 A2} (RA : A1 → A2 → Prop)
    (r1 : Exc + A1) (r2 : Exc + A2) : Prop :=
  match r1, r2 with
  | inl e1, inl e2 => e1 = e2
  | inr x, inr y => RA x y
  | _, _ => False
  end.

(** Two computations that, run on stores that are alike, have the same
    outcome and leave stores that are alike. *)
Definition corresponds {R1 G1 R2 G2}
    (SR : gen_state R1 → gen_state R2 → Prop)
    (SG : gen_state G1 → gen_state G2 → Prop)
    {A1 A2} (RA : A1 → A2 → Prop)
    (c1 : M R1 G1 A1) (c2 : M R2 G2 A2) : Prop :=
  ∀ m1 m2, alike SR SG m1 m2 →
    same_outcome RA (c1 m1).1 (c2 m2).1 ∧ alike SR SG (c1 m1).2 (c2 m2).2.

(** A replaying generator that also counts the draws it has answered. *)
Definition counting_tape : Generator :=
  {| gen_state := nat * list nat;
     gen_seed := λ s, (0%nat, [Z.to_nat s]);
     gen_below := λ n ct,
       ((tape_below n ct.2).1, (S ct.1, (tape_below n ct.2).2));
     gen_below_lt := λ n ct Hn, gen_below_lt tape n ct.2 Hn |}.

(** A tape and a counting tape that hold the same draws. *)
Definition same_tape (t : gen_state tape) (ct : gen_state counting_tape)
  : Prop := ct.2 = t.

(** [MoneyModel(n=2, width=1, height=1, seed=0)]: two agents on the only
    cell of the grid. *)
Definition cramped : Model tape tape :=
  {| num_agents := 2;
     agents := [mkAgent (Some (0, 0)) 1; mkAgent (Some (0, 0)) 1];
     grid := mkGrid 1 1 true {[ (0, 0) := [0%nat; 1%nat] ]};
     random := ([0%nat] : gen_state tape);
     rng := ([] : gen_state tape);
     datacollector := mkCollector [(0 # 8)%Q] [[(0%nat, 1); (1%nat, 1)]] |}.

(** ** Sentences of the spec, as they are written *)

(** "If the neighborhood is empty (degenerate 1×1 grid), the agent does not
    move — this is not an error." *)
Definition empty_move_is_noop {R G} (m : Model R G) (self : AgentId) : Prop :=
  ∀ ag p,
    agents m !! self = Some ag → pos ag = Some p →
    get_neighborhood (grid m) p false 1 = [] →
    (∃ m', MoneyAgent_move self m = (inr (), m')
           ∧ pos <$> agents m' !! self = Some (Some p))
    ∧ (MoneyAgent_step self m).1 = inr ().

(** "The inequality-coefficient division-by-zero case must be a defined,
    documented policy, not a runtime crash." *)
Definition zero_wealth_has_value {R G} (m : Model R G) : Prop :=
  (0 < num_agents m)%nat → total_wealth m = 0 → ∃ v, compute_gini m = inr v.

(** "invokes each agent's step operation in that order, sequentially.  After
    all agents have acted, [...] invokes MetricsCollector's capture": on a
    constructed model every call to [step] runs the step of every agent of
    the drawn order to its end and then captures once. *)
Definition every_tick_completes (R G : Generator) (n : nat) (w h seed : Z)
  : Prop :=
  ∀ m, MoneyModel_init R G n w h seed = inr m → ∀ k,
    let m0 := after_steps k m in
    let drawn := shuffle R (seq 0 (length (agents m0))) (random m0) in
    ∃ m1 m',
      for_each drawn.1 MoneyAgent_step (set_random drawn.2 m0) = (inr (), m1) ∧
      MoneyModel_step m0 = (inr (), m') ∧
      length (model_vars (datacollector m')) =
        S (length (model_vars (datacollector m0))).

(** * Properties *)

(** ** Sums *)

Lemma fold_left_add_acc (l : list Z) (a : Z) :
  fold_left Z.add l a = a + fold_left Z.add l 0.
Proof.
  revert a. induction l as [|x l IH]; intros a; simpl; [lia|].
  rewrite (IH (a + x)), (IH (0 + x)). lia.
Qed.

Lemma sum_cons (x : Z) (l : list Z) : sum (x :: l) = x + sum l.
Proof. unfold sum. simpl. apply fold_left_add_acc. Qed.

Lemma sum_app (l k : list Z) : sum (l ++ k) = sum l + sum k.
Proof.
  induction l as [|x l IH]; [reflexivity|].
  simpl. rewrite !sum_cons, IH. lia.
Qed.

Lemma sum_Permutation (l k : list Z) : l ≡ₚ k → sum l = sum k.
Proof.
  induction 1 as [|x l k _ IH|x y l|l k j _ IH1 _ IH2];
    rewrite ?sum_cons; lia.
Qed.

Lemma sum_insert (l : list Z) (i : nat) (a b : Z) :
  l !! i = Some a → sum (<[i:=b]> l) = sum l - a + b.
Proof.
  revert i. induction l as [|x l IH]; intros [|i] Hi; simplify_eq/=.
  - rewrite !sum_cons. lia.
  - rewrite !sum_cons, (IH i Hi). lia.
Qed.

Lemma sum_replicate (n : nat) (c : Z) : sum (replicate n c) = Z.of_nat n * c.
Proof.
  induction n as [|n IH]; [reflexivity|].
  simpl replicate. rewrite sum_cons, IH. lia.
Qed.

Lemma sum_sorted (l : list Z) : sum (sorted l) = sum l.
Proof. apply sum_Permutation, merge_sort_Permutation. Qed.

(** ** The shuffle draws a permutation *)

Lemma insert_swap_head {A} (l : list A) (j : nat) (a b : A) :
  l !! j = Some b → b :: <[j:=a]> l ≡ₚ a :: l.
Proof.
  revert j. induction l as [|x l IH]; intros [|j] Hj; simplify_eq/=.
  - apply perm_swap.
  - rewrite (perm_swap x b), (IH j Hj). apply perm_swap.
Qed.

Lemma swap_Permutation {A} (x : list A) (i j : nat) : swap x i j ≡ₚ x.
Proof.
  unfold swap.
  destruct (x !! i) as [a|] eqn:Hi; [|reflexivity].
  destruct (x !! j) as [b|] eqn:Hj; [|reflexivity].
  revert i j Hi Hj.
  induction x as [|h x IH]; intros [|i] [|j] Hi Hj; simplify_eq/=.
  - reflexivity.
  - by apply insert_swap_head.
  - by apply insert_swap_head.
  - by rewrite IH.
Qed.

Lemma shuffle_from_Permutation (R : Generator) {A} (i : nat) (x : list A) g :
  (shuffle_from R i x g).1 ≡ₚ x.
Proof.
  revert x g. induction i as [|i IH]; intros x g; simpl; [reflexivity|].
  destruct (gen_below R (S (S i)) g) as [j g'].
  rewrite IH. apply swap_Permutation.
Qed.

Lemma shuffle_Permutation (R : Generator) {A} (x : list A) g :
  (shuffle R x g).1 ≡ₚ x.
Proof. apply shuffle_from_Permutation. Qed.

(** ** Running the monad *)

Section Frame.
Context {R G : Generator}.
Implicit Types (m : Model R G) (a self other : AgentId).

Abbreviation pres := (preserves (R:=R) (G:=G)).

Lemma bind_run {A B} (c : M R G A) (k : A → M R G B) m x m' :
  c m = (inr x, m') → bind c k m = k x m'.
Proof. unfold bind. by intros ->. Qed.

Lemma bind_fail {A B} (c : M R G A) (k : A → M R G B) m e m' :
  c m = (inl e, m') → bind c k m = (inl e, m').
Proof. unfold bind. by intros ->. Qed.

Lemma for_each_raise {A} (before : list A) x (after : list A)
    (f : A → M R G ()) m m1 e m2 :
  for_each before f m = (inr (), m1) → f x m1 = (inl e, m2) →
  for_each (before ++ x :: after) f m = (inl e, m2).
Proof.
  revert m. induction before as [|y before IH]; intros m Hbefore Hx.
  - injection Hbefore as <-. simpl. by apply bind_fail.
  - simpl in *. destruct (f y m) as [[e'|[]] m0] eqn:E.
    { by rewrite (bind_fail _ _ _ _ _ E) in Hbefore. }
    rewrite (bind_run _ _ _ _ _ E) in Hbefore.
    rewrite (bind_run _ _ _ _ _ E). by apply IH.
Qed.

Lemma agent_run a m ag : agents m !! a = Some ag → agent a m = (inr ag, m).
Proof. unfold agent. by intros ->. Qed.

Lemma agent_fail a m :
  agents m !! a = None → agent a m = (inl ContractViolation, m).
Proof. unfold agent. by intros ->. Qed.

Lemma self_pos_run a m ag p :
  agents m !! a = Some ag → pos ag = Some p → self_pos a m = (inr p, m).
Proof.
  intros Ha Hp. unfold self_pos.
  rewrite (bind_run _ _ _ _ _ (agent_run _ _ _ Ha)), Hp. reflexivity.
Qed.

Lemma self_pos_inv a m r m' :
  self_pos a m = (r, m') →
  m' = m ∧ ∀ p, r = inr p → ∃ ag, agents m !! a = Some ag ∧ pos ag = Some p.
Proof.
  unfold self_pos, bind, agent, ret, raise.
  destruct (agents m !! a) as [ag|]; [destruct (pos ag) as [q|] eqn:Hq|];
    intros [= <- <-]; split; try done.
  intros p [= <-]. eauto.
Qed.

Lemma set_wealth_run a w m ag :
  agents m !! a = Some ag →
  set_wealth a w m = (inr (), set_agents (<[a := mkAgent (pos ag) w]> (agents m)) m).
Proof.
  intros Ha. unfold set_wealth.
  by rewrite (bind_run _ _ _ _ _ (agent_run _ _ _ Ha)).
Qed.

(** ** Computations that do not touch an observation *)

Section Keeps.
Context {X : Type} (obs : Model R G → X).

Lemma keeps_ret {A} (x : A) : keeps obs (ret x).
Proof. by intros m. Qed.

Lemma keeps_raise {A} (e : Exc) : keeps obs (raise (A:=A) e).
Proof. by intros m. Qed.

Lemma keeps_get : keeps obs get.
Proof. by intros m. Qed.

Lemma keeps_lift {A} (r : Exc + A) : keeps obs (lift r).
Proof. by intros m. Qed.

Lemma keeps_modify (f : Model R G → Model R G) :
  (∀ m, obs (f m) = obs m) → keeps obs (modify f).
Proof. intros Hf m. apply Hf. Qed.

Lemma keeps_bind {A B} (c : M R G A) (k : A → M R G B) :
  keeps obs c → (∀ x, keeps obs (k x)) → keeps obs (bind c k).
Proof.
  intros Hc Hk m. unfold bind. specialize (Hc m).
  destruct (c m) as [[e|x] m']; simpl in *; [done|].
  by rewrite Hk.
Qed.

Lemma keeps_agent a : keeps obs (agent a).
Proof. intros m. unfold agent. by destruct (agents m !! a). Qed.

Lemma keeps_self_pos a : keeps obs (self_pos a).
Proof.
  intros m. destruct (self_pos a m) as [r m'] eqn:E.
  by destruct (self_pos_inv _ _ _ _ E) as [-> _].
Qed.

Lemma keeps_set_pos a p :
  (∀ l m, obs (set_agents l m) = obs m) → keeps obs (set_pos a p).
Proof.
  intros Hobs m. unfold set_pos, bind, agent, modify.
  destruct (agents m !! a) as [ag|]; simpl; [apply Hobs|done].
Qed.

Lemma keeps_set_wealth a w :
  (∀ l m, obs (set_agents l m) = obs m) → keeps obs (set_wealth a w).
Proof.
  intros Hobs m. unfold set_wealth, bind, agent, modify.
  destruct (agents m !! a) as [ag|]; simpl; [apply Hobs|done].
Qed.

Lemma keeps_random_choice {A} (seq : list A) :
  (∀ g m, obs (set_random g m) = obs m) → keeps obs (random_choice seq).
Proof.
  intros Hobs m. unfold random_choice.
  destruct (choice R seq (random m)) as [e|[x g']]; [done|apply Hobs].
Qed.

Lemma keeps_for_each {A} (l : list A) (f : A → M R G ()) :
  (∀ x, keeps obs (f x)) → keeps obs (for_each l f).
Proof.
  intros Hf. induction l as [|x l IH]; simpl.
  - apply keeps_ret.
  - apply keeps_bind; [apply Hf | intros _; apply IH].
Qed.

Lemma keeps_preserves {A} (Q : X → Prop) (c : M R G A) :
  keeps obs c → pres (λ m, Q (obs m)) c.
Proof. intros Hc m HQ. by rewrite Hc. Qed.

End Keeps.

(** Moving an agent rewrites its record with the wealth it had. *)
Lemma keeps_wealths_set_pos a p : keeps (R:=R) (G:=G) wealths (set_pos a p).
Proof.
  intros m. unfold set_pos, bind, agent, modify.
  destruct (agents m !! a) as [ag|] eqn:E; simpl; [|done].
  unfold wealths. simpl. rewrite list_fmap_insert. simpl.
  apply list_insert_id. by rewrite list_lookup_fmap, E.
Qed.

(** Neither a move nor a transfer changes the number of agents. *)
Lemma keeps_population_set_pos a p :
  keeps (R:=R) (G:=G) (λ m, length (agents m)) (set_pos a p).
Proof.
  intros m. unfold set_pos, bind, agent, modify.
  destruct (agents m !! a) as [ag|]; simpl; [|done]. apply length_insert.
Qed.

Lemma keeps_population_set_wealth a w :
  keeps (R:=R) (G:=G) (λ m, length (agents m)) (set_wealth a w).
Proof.
  intros m. unfold set_wealth, bind, agent, modify.
  destruct (agents m !! a) as [ag|]; simpl; [|done]. apply length_insert.
Qed.

(** ** Computations that maintain a property *)

Lemma preserves_bind {A B} P (c : M R G A) (k : A → M R G B) :
  pres P c → (∀ x, pres P (k x)) → pres P (bind c k).
Proof.
  intros Hc Hk m HP. unfold bind. specialize (Hc m HP).
  destruct (c m) as [[e|x] m']; simpl in *; [done|].
  by apply Hk.
Qed.

Lemma preserves_for_each {A} P (l : list A) (f : A → M R G ()) :
  (∀ x, pres P (f x)) → pres P (for_each l f).
Proof.
  intros Hf. induction l as [|x l IH]; simpl.
  - by intros m.
  - apply preserves_bind; [apply Hf | intros _; apply IH].
Qed.

Lemma preserves_shuffle_do P (f : AgentId → M R G ()) :
  (∀ m g, P m → P (set_random g m)) →
  (∀ a, pres P (f a)) → pres P (shuffle_do f).
Proof.
  intros Hr Hf m HP. unfold shuffle_do.
  rewrite (bind_run _ _ m m m) by done.
  destruct (shuffle R (seq 0 (length (agents m))) (random m)) as [order g'].
  erewrite bind_run by done.
  apply preserves_for_each; auto.
Qed.

End Frame.

Lemma shape_cell_add g p a : shape (cell_add g p a) = shape g.
Proof. unfold cell_add. by case_decide. Qed.

Lemma shape_cell_remove g p a : shape (cell_remove g p a) = shape g.
Proof. reflexivity. Qed.

Lemma shape_set_grid {R G} (m : Model R G) p a :
  shape (grid (set_grid (cell_add (grid m) p a) m)) = shape (grid m).
Proof. apply shape_cell_add. Qed.

Create HintDb frame discriminated.
#[global] Hint Resolve keeps_ret keeps_raise keeps_get keeps_lift keeps_bind
  keeps_agent keeps_self_pos keeps_for_each keeps_wealths_set_pos
  keeps_population_set_pos keeps_population_set_wealth : frame.
#[global] Hint Extern 1 (keeps _ (modify _)) =>
  apply keeps_modify; intros ?; first [reflexivity | apply shape_set_grid]
  : frame.
#[global] Hint Extern 1 (keeps _ (random_choice _)) =>
  apply keeps_random_choice; intros ? ?; reflexivity : frame.
#[global] Hint Extern 3 (keeps _ (set_pos _ _)) =>
  apply keeps_set_pos; intros ? ?; reflexivity : frame.
#[global] Hint Extern 3 (keeps _ (set_wealth _ _)) =>
  apply keeps_set_wealth; intros ? ?; reflexivity : frame.
#[global] Hint Extern 2 (keeps _ (match ?x with _ => _ end)) =>
  destruct x : frame.

(** Unfolds the operations of the model down to the primitives above. *)
Ltac frame :=
  unfold MoneyModel_step, shuffle_do, MoneyAgent_step, MoneyAgent_give_money,
    MoneyAgent_move, collect, get_cell_list_contents, move_agent, place_agent;
  auto 20 with frame.

Section Frames.
Context {R G : Generator}.
Implicit Types (a self : AgentId).

Lemma keeps_place_agent a p : keeps (R:=R) (G:=G) wealths (place_agent a p).
Proof. frame. Qed.

Lemma keeps_collect : keeps (R:=R) (G:=G) wealths collect.
Proof. frame. Qed.

Lemma keeps_MoneyAgent_move self :
  keeps (R:=R) (G:=G) wealths (MoneyAgent_move self).
Proof. frame. Qed.

(** The agents never write to the collector. *)
Lemma agent_step_datacollector self :
  keeps (R:=R) (G:=G) datacollector (MoneyAgent_step self).
Proof. frame. Qed.

(** Nothing changes the extent or the boundary policy of the grid. *)
Lemma keeps_shape_place_agent a p :
  keeps (R:=R) (G:=G) (λ m, shape (grid m)) (place_agent a p).
Proof. frame. Qed.

Lemma keeps_shape_collect : keeps (R:=R) (G:=G) (λ m, shape (grid m)) collect.
Proof. frame. Qed.

Lemma step_shape : keeps (R:=R) (G:=G) (λ m, shape (grid m)) MoneyModel_step.
Proof. frame. Qed.

(** A tick changes neither the size of the population nor [num_agents]. *)
Lemma step_population :
  keeps (R:=R) (G:=G) (λ m, (num_agents m, length (agents m))) MoneyModel_step.
Proof.
  intros m.
  assert (keeps (R:=R) (G:=G) num_agents MoneyModel_step) as H1 by frame.
  assert (keeps (R:=R) (G:=G) (λ m, length (agents m)) MoneyModel_step) as H2
    by frame.
  by rewrite H1, H2.
Qed.

End Frames.

(** ** The transfer phase *)

Lemma credit_length other l : length (credit other l) = length l.
Proof. unfold credit. destruct (l !! other); by rewrite ?length_insert. Qed.

Lemma wealth_credit other l o :
  l !! other = Some o →
  wealth <$> credit other l = <[other := wealth o + 1]> (wealth <$> l).
Proof. intros Ho. unfold credit. by rewrite Ho, list_fmap_insert. Qed.

Lemma wealth_debit self l s :
  l !! self = Some s →
  wealth <$> debit self l = <[self := wealth s - 1]> (wealth <$> l).
Proof. intros Hs. unfold debit. by rewrite Hs, list_fmap_insert. Qed.

(** Giving to oneself changes nothing. *)
Lemma debit_credit_self self l : debit self (credit self l) = l.
Proof.
  unfold debit, credit. destruct (l !! self) as [s|] eqn:Hs.
  - assert (self < length l)%nat as Hlt by by eapply lookup_lt_Some.
    rewrite list_lookup_insert_eq by done. simpl.
    rewrite list_insert_insert_eq.
    replace (wealth s + 1 - 1) with (wealth s) by lia.
    apply list_insert_id. by destruct s.
  - by rewrite Hs.
Qed.

(** Giving to another agent moves one unit and nothing else. *)
Lemma debit_credit_other self other l s o :
  other ≠ self → l !! self = Some s → l !! other = Some o →
  wealth <$> debit self (credit other l)
  = <[self := wealth s - 1]> (<[other := wealth o + 1]> (wealth <$> l)).
Proof.
  intros Hne Hs Ho.
  rewrite (wealth_debit _ _ s), (wealth_credit _ _ o); try done.
  unfold credit. rewrite Ho. by rewrite list_lookup_insert_ne.
Qed.

Lemma sum_debit_credit self other l :
  is_Some (l !! self) → is_Some (l !! other) →
  sum (wealth <$> debit self (credit other l)) = sum (wealth <$> l).
Proof.
  intros [s Hs] [o Ho]. destruct (decide (other = self)) as [->|Hne].
  - by rewrite debit_credit_self.
  - rewrite (debit_credit_other _ _ _ s o) by done.
    rewrite (sum_insert _ _ (wealth s)), (sum_insert _ _ (wealth o)).
    + lia.
    + by rewrite list_lookup_fmap, Ho.
    + rewrite list_lookup_insert_ne by done. by rewrite list_lookup_fmap, Hs.
Qed.

Lemma nonneg_debit_credit self other l s :
  l !! self = Some s → 0 < wealth s → is_Some (l !! other) →
  Forall (λ w, 0 ≤ w) (wealth <$> l) →
  Forall (λ w, 0 ≤ w) (wealth <$> debit self (credit other l)).
Proof.
  intros Hs Hpos [o Ho] Hl. destruct (decide (other = self)) as [->|Hne].
  - by rewrite debit_credit_self.
  - rewrite (debit_credit_other _ _ _ s o) by done.
    apply Forall_insert; [apply Forall_insert; [done|]|lia].
    assert (0 ≤ wealth o); [|lia].
    eapply (Forall_lookup_1 _ _ other); [exact Hl|].
    by rewrite list_lookup_fmap, Ho.
Qed.

Section Transfer.
Context {R G : Generator}.
Implicit Types (m : Model R G) (a self other : AgentId).

Lemma random_choice_inv {A} (seq : list A) m r m' :
  random_choice seq m = (r, m') →
  agents m' = agents m ∧ grid m' = grid m ∧ ∀ x, r = inr x → x ∈ seq.
Proof.
  unfold random_choice, choice. destruct seq as [|y seq'].
  { intros [= <- <-]. by repeat split. }
  destruct (gen_below R (length (y :: seq')) (random m)) as [i g'].
  destruct ((y :: seq') !! i) as [x|] eqn:Hi; intros [= <- <-];
    repeat split; try done.
  intros ? [= <-]. by eapply list_elem_of_lookup_2.
Qed.

(** What [give_money] does for an agent that stands on the grid. *)
Lemma give_money_run self m ag p :
  agents m !! self = Some ag → pos ag = Some p →
  let cellmates := contents (grid m) p in
  MoneyAgent_give_money self m =
    if decide (1 < length cellmates)%nat then
      match random_choice cellmates m with
      | (inl e, m1) => (inl e, m1)
      | (inr other, m1) =>
          match agents m !! other with
          | Some _ => (inr (), set_agents (debit self (credit other (agents m))) m1)
          | None => (inl ContractViolation, m1)
          end
      end
    else (inr (), m).
Proof.
  intros Hs Hp cellmates. unfold MoneyAgent_give_money.
  rewrite (bind_run _ _ _ _ _ (self_pos_run _ _ _ _ Hs Hp)).
  rewrite (bind_run _ _ m (cellmates ++ []) m) by reflexivity.
  rewrite app_nil_r.
  destruct (decide (1 < length cellmates)%nat); [|done].
  destruct (random_choice cellmates m) as [[e|other] m1] eqn:E.
  { by rewrite (bind_fail _ _ _ _ _ E). }
  rewrite (bind_run _ _ _ _ _ E).
  destruct (random_choice_inv _ _ _ _ E) as (Hag & _ & _).
  rewrite <- Hag.
  destruct (agents m1 !! other) as [o|] eqn:Ho.
  2: { by rewrite (bind_fail _ _ _ _ _ (agent_fail _ _ Ho)). }
  rewrite (bind_run _ _ _ _ _ (agent_run _ _ _ Ho)).
  rewrite (bind_run _ _ _ _ _ (set_wealth_run _ _ _ _ Ho)).
  assert (is_Some (<[other:=mkAgent (pos o) (wealth o + 1)]> (agents m1) !! self))
    as [s Hs'].
  { apply lookup_lt_is_Some. rewrite length_insert, Hag.
    by eapply lookup_lt_Some. }
  set (m2 := set_agents (<[other:=mkAgent (pos o) (wealth o + 1)]> (agents m1)) m1).
  rewrite (bind_run _ _ _ _ _ (agent_run self m2 s Hs')).
  rewrite (set_wealth_run self _ m2 s Hs').
  unfold debit, credit. rewrite Ho, Hs'. by destruct m1.
Qed.

End Transfer.

(** ** Wealth is moved, never made or lost *)

Section Invariants.
Context {R G : Generator}.
Implicit Types (m : Model R G) (a self other : AgentId).

Lemma total_wealth_wealths m : total_wealth m = sum (wealths m).
Proof. reflexivity. Qed.

Lemma give_money_total self m :
  total_wealth (MoneyAgent_give_money self m).2 = total_wealth m.
Proof.
  destruct (self_pos self m) as [[e|p] m'] eqn:E;
    destruct (self_pos_inv _ _ _ _ E) as [-> H].
  { unfold MoneyAgent_give_money. by rewrite (bind_fail _ _ _ _ _ E). }
  destruct (H p eq_refl) as (ag & Hs & Hp).
  rewrite (give_money_run _ _ _ _ Hs Hp).
  destruct (decide _); [|done].
  destruct (random_choice _ m) as [[e|other] m1] eqn:E2;
    destruct (random_choice_inv _ _ _ _ E2) as (Hag & _ & _);
    unfold total_wealth; simpl.
  { by rewrite Hag. }
  destruct (agents m !! other) eqn:Ho; simpl; [|by rewrite Hag].
  apply sum_debit_credit; eauto.
Qed.

Lemma give_money_nonneg self m s :
  agents m !! self = Some s → 0 < wealth s →
  nonneg m → nonneg (MoneyAgent_give_money self m).2.
Proof.
  intros Hs Hpos Hm.
  destruct (self_pos self m) as [[e|p] m'] eqn:E;
    destruct (self_pos_inv _ _ _ _ E) as [-> H].
  { unfold MoneyAgent_give_money. by rewrite (bind_fail _ _ _ _ _ E). }
  destruct (H p eq_refl) as (ag & Hs' & Hp).
  rewrite (give_money_run _ _ _ _ Hs' Hp).
  destruct (decide _); [|done].
  destruct (random_choice _ m) as [[e|other] m1] eqn:E2;
    destruct (random_choice_inv _ _ _ _ E2) as (Hag & _ & _);
    unfold nonneg, wealths in *; simpl.
  { by rewrite Hag. }
  destruct (agents m !! other) eqn:Ho; simpl; [|by rewrite Hag].
  assert (ag = s) as -> by congruence.
  eapply nonneg_debit_credit; eauto.
Qed.

Lemma agent_step_total self m :
  total_wealth (MoneyAgent_step self m).2 = total_wealth m.
Proof.
  unfold MoneyAgent_step, bind.
  pose proof (keeps_MoneyAgent_move self m) as Hmove.
  destruct (MoneyAgent_move self m) as [[e|[]] m1]; simpl in Hmove.
  { cbn [snd]. by rewrite !total_wealth_wealths, Hmove. }
  rewrite (total_wealth_wealths m), <- Hmove, <- total_wealth_wealths.
  unfold agent. destruct (agents m1 !! self) as [s|]; [|done].
  destruct (decide (0 < wealth s)); [|done].
  apply give_money_total.
Qed.

Lemma agent_step_nonneg self : preserves (R:=R) (G:=G) nonneg (MoneyAgent_step self).
Proof.
  intros m Hm. unfold MoneyAgent_step, bind.
  pose proof (keeps_MoneyAgent_move self m) as Hmove.
  destruct (MoneyAgent_move self m) as [[e|[]] m1]; simpl in Hmove.
  { cbn [snd]. unfold nonneg. by rewrite Hmove. }
  assert (nonneg m1) as Hm1 by (unfold nonneg; by rewrite Hmove).
  unfold agent. destruct (agents m1 !! self) as [s|] eqn:Hs; [|done].
  destruct (decide (0 < wealth s)); [|done].
  by eapply give_money_nonneg.
Qed.

(** Whatever depends on the agents' wealth only and is kept by one agent's
    step is kept by a tick. *)
Lemma step_preserves (Q : list Z → Prop) :
  (∀ self, preserves (R:=R) (G:=G) (λ m, Q (wealths m)) (MoneyAgent_step self)) →
  ∀ m, Q (wealths m) → Q (wealths (after_step m)).
Proof.
  intros Hstep m HQ. unfold after_step, MoneyModel_step.
  apply (preserves_bind (λ m, Q (wealths m))); [| |done].
  - by apply preserves_shuffle_do.
  - intros _. apply (keeps_preserves wealths Q), keeps_collect.
Qed.

Lemma step_total m : total_wealth (after_step m) = total_wealth m.
Proof.
  rewrite !total_wealth_wealths.
  apply (step_preserves (λ l, sum l = sum (wealths m))); [|done].
  intros self m' Hm'. cbv beta.
  by rewrite <- !total_wealth_wealths, agent_step_total.
Qed.

Lemma steps_total k m : total_wealth (after_steps k m) = total_wealth m.
Proof.
  induction k as [|k IH]; [done|].
  unfold after_steps in *. simpl. by rewrite step_total.
Qed.

Lemma step_nonneg m : nonneg m → nonneg (after_step m).
Proof.
  apply (step_preserves (Forall (λ w, 0 ≤ w))).
  intros self. apply agent_step_nonneg.
Qed.

(** ** Construction *)

(** What placement and the first capture leave alone is as the blank model
    has it. *)
Lemma init_keeps {X} (obs : Model R G → X) n w h seed m :
  (∀ a p, keeps obs (place_agent a p)) → keeps obs collect →
  (∀ g m, obs (set_rng g m) = obs m) →
  MoneyModel_init R G n w h seed = inr m →
  obs m = obs (MoneyModel_blank R G n w h seed).
Proof.
  intros Hplace Hcollect Hrng. unfold MoneyModel_init.
  destruct (decide _); [done|].
  destruct (integers G 0 w n _) as [x g1].
  destruct (integers G 0 h n g1) as [y g2].
  match goal with |- context [bind ?c ?k ?m0] =>
    assert (keeps obs (bind c k)) as Hk;
    [|specialize (Hk m0); destruct (bind c k m0) as [[e|u] m']]
  end.
  { apply keeps_bind; [|intros _; apply Hcollect].
    apply keeps_for_each. intros x0. apply Hplace. }
  { done. }
  intros [= <-]. simpl in Hk. by rewrite Hk, Hrng.
Qed.

Lemma init_wealths n w h seed m :
  MoneyModel_init R G n w h seed = inr m → wealths m = replicate n 1.
Proof.
  intros Hinit. rewrite (init_keeps wealths _ _ _ _ _ keeps_place_agent
    keeps_collect (λ _ _, eq_refl) Hinit).
  unfold wealths. simpl. by rewrite fmap_replicate.
Qed.

Lemma init_shape n w h seed m :
  MoneyModel_init R G n w h seed = inr m → shape (grid m) = (w, h, true).
Proof.
  intros Hinit.
  by rewrite (init_keeps (λ m, shape (grid m)) _ _ _ _ _
    keeps_shape_place_agent keeps_shape_collect (λ _ _, eq_refl) Hinit).
Qed.

Lemma steps_shape k m : shape (grid (after_steps k m)) = shape (grid m).
Proof.
  induction k as [|k IH]; [done|].
  unfold after_steps in *. simpl. rewrite <- IH. apply step_shape.
Qed.

Lemma init_population n w h seed m :
  MoneyModel_init R G n w h seed = inr m →
  num_agents m = n ∧ length (agents m) = n.
Proof.
  intros Hinit. split.
  - rewrite (init_keeps num_agents n w h seed m); try done.
    + intros; frame.
    + frame.
  - rewrite (init_keeps (λ m, length (agents m)) n w h seed m); try done.
    + apply length_replicate.
    + intros; frame.
    + frame.
Qed.

Lemma reachable_population m : reachable m → num_agents m = length (agents m).
Proof.
  induction 1 as [n w h seed m Hinit|m _ IH].
  - destruct (init_population _ _ _ _ _ Hinit). congruence.
  - unfold after_step. pose proof (step_population m) as [= -> ->]. done.
Qed.

Lemma reachable_nonneg m : reachable m → nonneg m.
Proof.
  induction 1 as [n w h seed m Hinit|m _ IH].
  - unfold nonneg. rewrite (init_wealths _ _ _ _ _ Hinit).
    apply Forall_replicate. lia.
  - by apply step_nonneg.
Qed.

End Invariants.

(** ** The inequality coefficient *)

Lemma Sigma_ext (n : nat) (f g : nat → Z) :
  (∀ i, (i < n)%nat → f i = g i) → Sigma n f = Sigma n g.
Proof.
  induction n as [|n IH]; intros Hfg; simpl; [done|].
  rewrite IH, Hfg by (intros; auto with lia). reflexivity.
Qed.

(** The generator expression over [enumerate(x)] is the indexed sum. *)
Lemma sum_imap_Sigma (f : nat → Z → Z) (x : list Z) :
  sum (imap f x) = Sigma (length x) (λ i, f i (nth i x 0)).
Proof.
  induction x as [|a x IH] using rev_ind; [done|].
  rewrite imap_app, sum_app, length_app, Nat.add_1_r. simpl.
  rewrite sum_cons, IH, Nat.add_0_r. unfold sum at 1. simpl.
  rewrite (nth_middle x [] a 0), Z.add_0_r. f_equal.
  apply Sigma_ext. intros i Hi. by rewrite app_nth1.
Qed.

Lemma sum_Sigma (x : list Z) : sum x = Sigma (length x) (λ i, nth i x 0).
Proof.
  rewrite <- (sum_imap_Sigma (λ _ xi, xi)).
  by rewrite (imap_const id), list_fmap_id.
Qed.

Lemma sorted_unique (l x : list Z) : x ≡ₚ l → Sorted Z.le x → sorted l = x.
Proof.
  intros Hp Hs. apply (Sorted_unique Z.le); [|done|].
  - apply (Sorted_merge_sort Z.le).
  - unfold sorted. rewrite Hp. apply merge_sort_Permutation.
Qed.

Section Gini.
Context {R G : Generator}.
Implicit Types (m : Model R G).

Lemma compute_gini_defined m :
  num_agents m = length (agents m) →
  Z.of_nat (num_agents m) * total_wealth m ≠ 0 →
  compute_gini m = inr (gini_formula (sorted (wealths m))).
Proof.
  intros HN Hden. unfold compute_gini, gini_formula. cbv zeta.
  fold (wealths m).
  assert (length (sorted (wealths m)) = num_agents m) as Hlen.
  { transitivity (length (wealths m)).
    - apply Permutation_length, merge_sort_Permutation.
    - unfold wealths. by rewrite length_fmap. }
  rewrite <- sum_Sigma.
  rewrite <- (sum_imap_Sigma
    (λ i xi, xi * (Z.of_nat (length (sorted (wealths m))) - Z.of_nat i))).
  rewrite Hlen, sum_sorted, <- total_wealth_wealths.
  destruct (decide _) as [|_]; [done|].
  destruct (decide _) as [HN0|_]; [|done].
  rewrite HN0 in Hden. lia.
Qed.

Lemma compute_gini_undefined m :
  Z.of_nat (num_agents m) * total_wealth m = 0 →
  compute_gini m = inl ZeroDivisionError.
Proof.
  intros Hden. unfold compute_gini. cbv zeta. fold (wealths m).
  rewrite sum_sorted, <- total_wealth_wealths.
  destruct (decide _); done.
Qed.

End Gini.

(** ** The neighbourhood is a function of the shape of the grid *)

Lemma get_neighborhood_shape g g' p c r :
  shape g = shape g' → get_neighborhood g p c r = get_neighborhood g' p c r.
Proof.
  destruct g, g'. unfold shape. simpl. intros [= -> -> ->]. reflexivity.
Qed.

Section Step.
Context {R G : Generator}.
Implicit Types (m : Model R G) (a self : AgentId).

(** A move on an empty neighbourhood raises before anything is written. *)
Lemma move_empty self m ag p :
  agents m !! self = Some ag → pos ag = Some p →
  get_neighborhood (grid m) p false 1 = [] →
  MoneyAgent_move self m = (inl IndexError, m).
Proof.
  intros Hs Hp Hempty. unfold MoneyAgent_move.
  rewrite (bind_run _ _ m m m) by done.
  rewrite (bind_run _ _ _ _ _ (self_pos_run _ _ _ _ Hs Hp)).
  by rewrite Hempty.
Qed.

(** A tick is the shuffle, the agents in the drawn order, one capture. *)
Lemma step_unfold m :
  MoneyModel_step m =
    bind (for_each (activation_order m) MoneyAgent_step) (λ _, collect)
      (set_random (shuffle R (seq 0 (length (agents m))) (random m)).2 m).
Proof.
  unfold MoneyModel_step, shuffle_do, activation_order, bind, get, modify.
  destruct (shuffle R (seq 0 (length (agents m))) (random m)) as [order g'].
  reflexivity.
Qed.

Lemma collect_inv m m' :
  collect m = (inr (), m') →
  ∃ v, compute_gini m = inr v ∧
       m' = set_datacollector
              {| model_vars := model_vars (datacollector m) ++ [v];
                 agent_vars := agent_vars (datacollector m)
                               ++ [imap (λ i ag, (i, wealth ag)) (agents m)] |} m.
Proof.
  unfold collect, bind, get, lift, modify.
  destruct (compute_gini m) as [e|v]; [done|].
  intros [= <-]. eauto.
Qed.

End Step.

(** ** What the transfer does, case by case *)

Section Cases.
Context {R G : Generator}.
Implicit Types (m : Model R G) (self other : AgentId).

(** A sole occupant gives nothing and draws nothing. *)
Lemma give_money_alone self m ag p :
  agents m !! self = Some ag → pos ag = Some p →
  (length (contents (grid m) p) ≤ 1)%nat →
  MoneyAgent_give_money self m = (inr (), m).
Proof.
  intros Hs Hp Hlen. rewrite (give_money_run _ _ _ _ Hs Hp).
  destruct (decide _); [lia|done].
Qed.

(** When the draw names another occupant, one unit goes from the giver to
    it and no other wealth changes. *)
Lemma give_money_transfer self other m m1 ag o p :
  agents m !! self = Some ag → pos ag = Some p →
  (1 < length (contents (grid m) p))%nat →
  random_choice (contents (grid m) p) m = (inr other, m1) →
  other ≠ self → agents m !! other = Some o →
  other ∈ contents (grid m) p ∧
  ∃ m', MoneyAgent_give_money self m = (inr (), m') ∧
        wealths m' =
          <[self := wealth ag - 1]> (<[other := wealth o + 1]> (wealths m)).
Proof.
  intros Hs Hp Hlen Hch Hne Ho.
  destruct (random_choice_inv _ _ _ _ Hch) as (_ & _ & Hin).
  split; [by apply Hin|].
  rewrite (give_money_run _ _ _ _ Hs Hp), Hch, Ho.
  destruct (decide _); [|lia].
  eexists. split; [reflexivity|].
  unfold wealths. simpl. by apply debit_credit_other.
Qed.

(** When the draw names the giver itself, no wealth changes. *)
Lemma give_money_self self m m1 ag p :
  agents m !! self = Some ag → pos ag = Some p →
  (1 < length (contents (grid m) p))%nat →
  random_choice (contents (grid m) p) m = (inr self, m1) →
  ∃ m', MoneyAgent_give_money self m = (inr (), m') ∧ wealths m' = wealths m.
Proof.
  intros Hs Hp Hlen Hch.
  rewrite (give_money_run _ _ _ _ Hs Hp), Hch, Hs.
  destruct (decide _); [|lia].
  eexists. split; [reflexivity|].
  unfold wealths. simpl. by rewrite debit_credit_self.
Qed.

(** A model without agents cannot be constructed: the first capture divides
    by zero. *)
Lemma init_no_agents w h seed m : MoneyModel_init R G 0 w h seed ≠ inr m.
Proof.
  unfold MoneyModel_init. destruct (decide _); [done|]. simpl.
  unfold bind, ret, collect, bind, get, lift. simpl. done.
Qed.

(** In a reachable state the capture is defined: the population is not
    empty and its wealth sums to its size. *)
Lemma reachable_census m :
  reachable m →
  num_agents m = length (agents m) ∧ (0 < num_agents m)%nat ∧
  total_wealth m = Z.of_nat (num_agents m).
Proof.
  induction 1 as [n w h seed m Hinit|m _ (IH1 & IH2 & IH3)].
  - destruct (init_population _ _ _ _ _ Hinit) as [-> ->].
    split; [done|]. split.
    + destruct n; [by apply init_no_agents in Hinit|lia].
    + rewrite total_wealth_wealths, (init_wealths _ _ _ _ _ Hinit).
      rewrite sum_replicate. lia.
  - rewrite step_total. unfold after_step.
    pose proof (step_population m) as [= -> ->]. done.
Qed.

Lemma reachable_gini_defined m :
  reachable m → compute_gini m = inr (gini_formula (sorted (wealths m))).
Proof.
  intros (H1 & H2 & H3)%reachable_census.
  apply compute_gini_defined; [done|]. rewrite H3. lia.
Qed.

End Cases.

(** ** Every order can be drawn

    On the tape generator the shuffle reaches every permutation of its
    argument: the draws choose, from the last place down, which element
    goes there. *)

Lemma swap_app {A} (x s : list A) (i j : nat) :
  (i < length x)%nat → (j < length x)%nat →
  swap (x ++ s) i j = swap x i j ++ s.
Proof.
  intros Hi Hj. unfold swap. rewrite !lookup_app_l by done.
  destruct (x !! i) as [a|]; [|done]. destruct (x !! j) as [b|]; [|done].
  rewrite insert_app_l by done.
  by rewrite insert_app_l by (by rewrite length_insert).
Qed.

Lemma swap_length {A} (x : list A) (i j : nat) : length (swap x i j) = length x.
Proof.
  unfold swap. destruct (x !! i); [|done]. destruct (x !! j); [|done].
  by rewrite !length_insert.
Qed.

(** Swapping with the last place puts the chosen element there. *)
Lemma swap_last {A} (x : list A) (b : A) (i j : nat) :
  length x = S i → x !! j = Some b →
  ∃ x', swap x i j = x' ++ [b] ∧ length x' = i.
Proof.
  intros Hlen Hj.
  assert (is_Some (x !! i)) as [a Hi] by (apply lookup_lt_is_Some; lia).
  assert (swap x i j !! i = Some b) as Hlast.
  { unfold swap. rewrite Hi, Hj. apply list_lookup_insert_eq.
    rewrite length_insert. lia. }
  exists (take i (swap x i j)). split.
  - rewrite <- (take_drop_middle _ _ _ Hlast) at 1.
    rewrite (drop_ge _ (S i)) by (rewrite swap_length; lia). done.
  - rewrite length_take, swap_length. lia.
Qed.

Lemma shuffle_from_app (R : Generator) {A} (i : nat) (x s : list A) g :
  length x = S i →
  shuffle_from R i (x ++ s) g =
    ((shuffle_from R i x g).1 ++ s, (shuffle_from R i x g).2).
Proof.
  revert x s g. induction i as [|i IH]; intros x s g Hlen; [done|].
  cbn [shuffle_from].
  pose proof (gen_below_lt R (S (S i)) g ltac:(lia)) as Hj.
  destruct (gen_below R (S (S i)) g) as [j g']. simpl in Hj.
  rewrite swap_app by lia.
  assert (is_Some (x !! j)) as [b Hb] by (apply lookup_lt_is_Some; lia).
  destruct (swap_last x b (S i) j Hlen Hb) as (x' & -> & Hlen').
  rewrite <- app_assoc.
  rewrite (IH x' ([b] ++ s) g' Hlen'), (IH x' [b] g' Hlen'). simpl.
  by rewrite <- app_assoc.
Qed.

Lemma shuffle_from_any {A} (i : nat) (x target : list A) :
  length x = S i → target ≡ₚ x →
  ∃ t : gen_state tape, (shuffle_from tape i x t).1 = target.
Proof.
  revert x target. induction i as [|i IH]; intros x target Hlen Hperm.
  { destruct x as [|a [|??]]; try done.
    apply Permutation_singleton_r in Hperm as ->. by exists []. }
  destruct target as [|b tgt _] using rev_ind.
  { apply Permutation_nil_l in Hperm. by subst. }
  assert (b ∈ x) as [j Hj]%list_elem_of_lookup_1.
  { rewrite <- Hperm. set_solver. }
  destruct (swap_last x b (S i) j Hlen Hj) as (x' & Hswap & Hlen').
  destruct (IH x' tgt Hlen') as [t Ht].
  { apply (inj (.++ [b])). rewrite Hperm, <- Hswap.
    symmetry. apply swap_Permutation. }
  exists (j :: t). cbn [shuffle_from gen_below tape tape_below].
  rewrite Nat.mod_small by (apply lookup_lt_Some in Hj; lia).
  rewrite Hswap, shuffle_from_app by done. simpl. f_equal. exact Ht.
Qed.

Lemma shuffle_any {A} (x target : list A) :
  target ≡ₚ x → ∃ t : gen_state tape, (shuffle tape x t).1 = target.
Proof.
  intros Hperm. unfold shuffle. destruct x as [|a x].
  - apply Permutation_nil_r in Hperm as ->. by exists [].
  - apply shuffle_from_any; [simpl; lia|done].
Qed.

(** ** Runs over generators that answer alike *)

Section Draws.
Context {R1 G1 R2 G2 : Generator}.
Context (SR : gen_state R1 → gen_state R2 → Prop).
Context (SG : gen_state G1 → gen_state G2 → Prop).
Context (HR : draw_bisimulation R1 R2 SR) (HG : draw_bisimulation G1 G2 SG).

Lemma choice_sim {A} (seq : list A) g1 g2 :
  SR g1 g2 →
  same_outcome (λ r1 r2, r1.1 = r2.1 ∧ SR r1.2 r2.2)
    (choice R1 seq g1) (choice R2 seq g2).
Proof.
  intros Hg. unfold choice. destruct seq as [|y seq']; [done|].
  destruct (HR g1 g2 Hg (length (y :: seq'))) as [Hi Hg'].
  destruct (gen_below R1 _ g1) as [i g1'], (gen_below R2 _ g2) as [j g2'].
  simpl in Hi, Hg'. subst j.
  by destruct ((y :: seq') !! i).
Qed.

Lemma shuffle_from_sim {A} i (x : list A) g1 g2 :
  SR g1 g2 →
  (shuffle_from R1 i x g1).1 = (shuffle_from R2 i x g2).1 ∧
  SR (shuffle_from R1 i x g1).2 (shuffle_from R2 i x g2).2.
Proof.
  revert x g1 g2. induction i as [|i IH]; intros x g1 g2 Hg; [done|].
  cbn [shuffle_from].
  destruct (HR g1 g2 Hg (S (S i))) as [Hj Hg'].
  destruct (gen_below R1 _ g1) as [j g1'], (gen_below R2 _ g2) as [j' g2'].
  simpl in Hj, Hg'. subst j'. by apply IH.
Qed.

Lemma integers_sim lo hi n g1 g2 :
  SG g1 g2 →
  (integers G1 lo hi n g1).1 = (integers G2 lo hi n g2).1 ∧
  SG (integers G1 lo hi n g1).2 (integers G2 lo hi n g2).2.
Proof.
  revert g1 g2. induction n as [|n IH]; intros g1 g2 Hg; [done|].
  cbn [integers].
  destruct (HG g1 g2 Hg (Z.to_nat (hi - lo))) as [Hd Hg'].
  destruct (gen_below G1 _ g1) as [d g1'], (gen_below G2 _ g2) as [d' g2'].
  simpl in Hd, Hg'. subst d'.
  destruct (IH g1' g2' Hg') as [Hds Hg''].
  destruct (integers G1 lo hi n g1') as [ds g1''],
           (integers G2 lo hi n g2') as [ds' g2''].
  simpl in *. by subst.
Qed.

Lemma corr_ret {A} (x : A) : corresponds SR SG eq (ret x) (ret x).
Proof. by intros m1 m2 Hm. Qed.

Lemma corr_raise {A} e : corresponds SR SG (@eq A) (raise e) (raise e).
Proof. by intros m1 m2 Hm. Qed.

Lemma corr_lift {A} (r : Exc + A) : corresponds SR SG eq (lift r) (lift r).
Proof. intros m1 m2 Hm. split; [|done]. simpl. by destruct r. Qed.

Lemma corr_get : corresponds SR SG (alike SR SG) get get.
Proof. by intros m1 m2 Hm. Qed.

Lemma corr_modify (f1 : Model R1 G1 → Model R1 G1)
    (f2 : Model R2 G2 → Model R2 G2) :
  (∀ m1 m2, alike SR SG m1 m2 → alike SR SG (f1 m1) (f2 m2)) →
  corresponds SR SG eq (modify f1) (modify f2).
Proof. intros Hf m1 m2 Hm. split; [done|]. by apply Hf. Qed.

Lemma corr_bind {A1 A2 B1 B2} (RA : A1 → A2 → Prop) (RB : B1 → B2 → Prop)
    (c1 : M R1 G1 A1) (c2 : M R2 G2 A2) k1 k2 :
  corresponds SR SG RA c1 c2 →
  (∀ x y, RA x y → corresponds SR SG RB (k1 x) (k2 y)) →
  corresponds SR SG RB (bind c1 k1) (bind c2 k2).
Proof.
  intros Hc Hk m1 m2 Hm. unfold bind.
  destruct (Hc m1 m2 Hm) as [Hr Hm'].
  destruct (c1 m1) as [[e1|x] m1'], (c2 m2) as [[e2|y] m2']; simpl in *;
    try done.
  by apply Hk.
Qed.

Lemma corr_agent a : corresponds SR SG eq (agent a) (agent a).
Proof.
  intros m1 m2 Hm. pose proof Hm as (_ & Ha & _). unfold agent. rewrite Ha.
  by destruct (agents m2 !! a).
Qed.

Lemma corr_random_choice {A} (seq : list A) :
  corresponds SR SG eq (random_choice seq) (random_choice seq).
Proof.
  intros m1 m2 Hm. pose proof Hm as (Hn & Ha & Hg & Hd & Hr & Hq).
  unfold random_choice. pose proof (choice_sim seq _ _ Hr) as Hc.
  destruct (choice R1 seq (random m1)) as [e1|[x g1']],
           (choice R2 seq (random m2)) as [e2|[y g2']]; simpl in *; try done.
  destruct Hc. done.
Qed.

Lemma corr_for_each {A} (l : list A) f1 f2 :
  (∀ x, corresponds SR SG eq (f1 x) (f2 x)) →
  corresponds SR SG eq (for_each l f1) (for_each l f2).
Proof.
  intros Hf. induction l as [|x l IH]; simpl; [apply corr_ret|].
  eapply corr_bind; [apply Hf|]. intros _ _ _. apply IH.
Qed.


Lemma sim_set_agents l (m1 : Model R1 G1) (m2 : Model R2 G2) :
  alike SR SG m1 m2 → alike SR SG (set_agents l m1) (set_agents l m2).
Proof. intros (?&?&?&?&?&?). by repeat split. Qed.

Lemma sim_set_grid g (m1 : Model R1 G1) (m2 : Model R2 G2) :
  alike SR SG m1 m2 → alike SR SG (set_grid g m1) (set_grid g m2).
Proof. intros (?&?&?&?&?&?). by repeat split. Qed.

Lemma sim_set_datacollector d (m1 : Model R1 G1) (m2 : Model R2 G2) :
  alike SR SG m1 m2 →
  alike SR SG (set_datacollector d m1) (set_datacollector d m2).
Proof. intros (?&?&?&?&?&?). by repeat split. Qed.

Lemma sim_set_random g1 g2 (m1 : Model R1 G1) (m2 : Model R2 G2) :
  SR g1 g2 → alike SR SG m1 m2 →
  alike SR SG (set_random g1 m1) (set_random g2 m2).
Proof. intros ? (?&?&?&?&?&?). by repeat split. Qed.

Lemma sim_set_rng g1 g2 (m1 : Model R1 G1) (m2 : Model R2 G2) :
  SG g1 g2 → alike SR SG m1 m2 →
  alike SR SG (set_rng g1 m1) (set_rng g2 m2).
Proof. intros ? (?&?&?&?&?&?). by repeat split. Qed.

Lemma compute_gini_sim (m1 : Model R1 G1) (m2 : Model R2 G2) :
  alike SR SG m1 m2 → compute_gini m1 = compute_gini m2.
Proof. intros (Hn & Ha & _). unfold compute_gini. by rewrite Hn, Ha. Qed.

Lemma corr_set_agents (f : list Agent → list Agent) :
  corresponds SR SG eq (modify (λ m, set_agents (f (agents m)) m))
          (modify (λ m, set_agents (f (agents m)) m)).
Proof.
  apply corr_modify. intros m1 m2 Hm. pose proof Hm as (_ & Ha & _).
  rewrite Ha. by apply sim_set_agents.
Qed.

Lemma corr_set_grid (f : MultiGrid → MultiGrid) :
  corresponds SR SG eq (modify (λ m, set_grid (f (grid m)) m))
          (modify (λ m, set_grid (f (grid m)) m)).
Proof.
  apply corr_modify. intros m1 m2 Hm. pose proof Hm as (_ & _ & Hg & _).
  rewrite Hg. by apply sim_set_grid.
Qed.

Lemma corr_set_pos a p : corresponds SR SG eq (set_pos a p) (set_pos a p).
Proof.
  eapply corr_bind; [apply corr_agent|]. intros ag _ <-.
  apply (corr_set_agents (λ l, <[a := mkAgent p (wealth ag)]> l)).
Qed.

Lemma corr_set_wealth a w :
  corresponds SR SG eq (set_wealth a w) (set_wealth a w).
Proof.
  eapply corr_bind; [apply corr_agent|]. intros ag _ <-.
  apply (corr_set_agents (λ l, <[a := mkAgent (pos ag) w]> l)).
Qed.

Lemma corr_self_pos a : corresponds SR SG eq (self_pos a) (self_pos a).
Proof.
  eapply corr_bind; [apply corr_agent|]. intros ag _ <-.
  destruct (pos ag); [apply corr_ret | apply corr_raise].
Qed.

Lemma corr_place_agent a p :
  corresponds SR SG eq (place_agent a p) (place_agent a p).
Proof.
  eapply corr_bind; [apply corr_get|]. intros m1 m2 (_ & _ & -> & _).
  eapply corr_bind; [apply corr_lift|]. intros p' _ <-.
  eapply corr_bind; [apply corr_agent|]. intros _ _ _.
  eapply corr_bind; [apply (corr_set_grid (λ g, cell_add g p' a))|].
  intros _ _ _. apply corr_set_pos.
Qed.

Lemma corr_move_agent a p :
  corresponds SR SG eq (move_agent a p) (move_agent a p).
Proof.
  eapply corr_bind; [apply corr_get|]. intros m1 m2 (_ & _ & -> & _).
  eapply corr_bind; [apply corr_lift|]. intros p' _ <-.
  eapply corr_bind; [apply corr_agent|]. intros ag _ <-.
  eapply corr_bind.
  { destruct (pos ag) as [q|];
      [apply (corr_set_grid (λ g, cell_remove g q a)) | apply corr_ret]. }
  intros _ _ _.
  eapply corr_bind; [apply (corr_set_grid (λ g, cell_add g p' a))|].
  intros _ _ _. apply corr_set_pos.
Qed.

Lemma corr_get_cell_list_contents ps :
  corresponds SR SG eq (get_cell_list_contents ps) (get_cell_list_contents ps).
Proof.
  eapply corr_bind; [apply corr_get|]. intros m1 m2 (_ & _ & -> & _).
  apply corr_ret.
Qed.

Lemma corr_MoneyAgent_move self :
  corresponds SR SG eq (MoneyAgent_move self) (MoneyAgent_move self).
Proof.
  eapply corr_bind; [apply corr_get|]. intros m1 m2 (_ & _ & -> & _).
  eapply corr_bind; [apply corr_self_pos|]. intros p _ <-.
  eapply corr_bind; [apply corr_random_choice|]. intros q _ <-.
  apply corr_move_agent.
Qed.

Lemma corr_MoneyAgent_give_money self :
  corresponds SR SG eq (MoneyAgent_give_money self) (MoneyAgent_give_money self).
Proof.
  eapply corr_bind; [apply corr_self_pos|]. intros p _ <-.
  eapply corr_bind; [apply corr_get_cell_list_contents|].
  intros cellmates _ <-. case_decide; [|apply corr_ret].
  eapply corr_bind; [apply corr_random_choice|]. intros other _ <-.
  eapply corr_bind; [apply corr_agent|]. intros o _ <-.
  eapply corr_bind; [apply corr_set_wealth|]. intros _ _ _.
  eapply corr_bind; [apply corr_agent|]. intros s _ <-.
  apply corr_set_wealth.
Qed.

Lemma corr_MoneyAgent_step self :
  corresponds SR SG eq (MoneyAgent_step self) (MoneyAgent_step self).
Proof.
  eapply corr_bind; [apply corr_MoneyAgent_move|]. intros _ _ _.
  eapply corr_bind; [apply corr_agent|]. intros s _ <-.
  case_decide; [apply corr_MoneyAgent_give_money | apply corr_ret].
Qed.

Lemma corr_collect : corresponds SR SG eq collect collect.
Proof.
  eapply corr_bind; [apply corr_get|]. intros m1 m2 Hm.
  rewrite (compute_gini_sim _ _ Hm). destruct Hm as (_ & -> & _ & -> & _).
  eapply corr_bind; [apply corr_lift|]. intros gini _ <-.
  apply corr_modify. intros. by apply sim_set_datacollector.
Qed.

Lemma corr_shuffle_do f1 f2 :
  (∀ a, corresponds SR SG eq (f1 a) (f2 a)) → corresponds SR SG eq (shuffle_do f1) (shuffle_do f2).
Proof.
  intros Hf. eapply corr_bind; [apply corr_get|].
  intros m1 m2 (_ & Ha & _ & _ & Hr & _). rewrite Ha.
  destruct (shuffle_from_sim (length (seq 0 (length (agents m2))) - 1)
              (seq 0 (length (agents m2))) _ _ Hr) as [Ho Hg].
  unfold shuffle.
  destruct (shuffle_from R1 _ _ (random m1)) as [o1 g1'],
           (shuffle_from R2 _ _ (random m2)) as [o2 g2'].
  simpl in Ho, Hg. subst o2.
  eapply corr_bind.
  { apply corr_modify. intros. by apply sim_set_random. }
  intros _ _ _. by apply corr_for_each.
Qed.

Lemma corr_MoneyModel_step : corresponds SR SG eq MoneyModel_step MoneyModel_step.
Proof.
  eapply corr_bind; [apply corr_shuffle_do, corr_MoneyAgent_step|].
  intros _ _ _. apply corr_collect.
Qed.

Lemma sim_after_step (m1 : Model R1 G1) (m2 : Model R2 G2) :
  alike SR SG m1 m2 → alike SR SG (after_step m1) (after_step m2).
Proof. intros Hm. apply (corr_MoneyModel_step m1 m2 Hm). Qed.

Lemma sim_trajectory k (m1 : Model R1 G1) (m2 : Model R2 G2) :
  alike SR SG m1 m2 → trajectory k m1 = trajectory k m2.
Proof.
  revert m1 m2. induction k as [|k IH]; intros m1 m2 Hm;
    pose proof Hm as (_ & Ha & _ & Hd & _); cbn [trajectory]; unfold snapshot;
    rewrite Ha, Hd; [done|].
  f_equal. by apply IH, sim_after_step.
Qed.

Lemma sim_init n w h seed :
  SR (gen_seed R1 seed) (gen_seed R2 seed) →
  SG (gen_seed G1 seed) (gen_seed G2 seed) →
  same_outcome (alike SR SG) (MoneyModel_init R1 G1 n w h seed)
                   (MoneyModel_init R2 G2 n w h seed).
Proof.
  intros HsR HsG. unfold MoneyModel_init. case_decide; [done|].
  cbn [rng MoneyModel_blank].
  destruct (integers_sim 0 w n _ _ HsG) as [Hx Hg1].
  destruct (integers G1 0 w n _) as [x g1], (integers G2 0 w n _) as [x' g1'].
  simpl in Hx, Hg1. subst x'.
  destruct (integers_sim 0 h n _ _ Hg1) as [Hy Hg2].
  destruct (integers G1 0 h n _) as [y g2], (integers G2 0 h n _) as [y' g2'].
  simpl in Hy, Hg2. subst y'.
  set (c1 := bind _ _). set (c2 := bind _ _).
  assert (Hc : corresponds SR SG eq c1 c2).
  { eapply corr_bind; [|intros _ _ _; apply corr_collect].
    apply corr_for_each. intros aij. apply corr_place_agent. }
  destruct (Hc (set_rng g2 (MoneyModel_blank R1 G1 n w h seed))
               (set_rng g2' (MoneyModel_blank R2 G2 n w h seed))) as [Ho Hm].
  { by repeat split. }
  destruct (c1 _) as [[e1|[]] m1], (c2 _) as [[e2|[]] m2]; simpl in *; done.
Qed.

Lemma sim_after_steps k (m1 : Model R1 G1) (m2 : Model R2 G2) :
  alike SR SG m1 m2 → alike SR SG (after_steps k m1) (after_steps k m2).
Proof.
  intros Hm. induction k as [|k IH]; [done|]. by apply sim_after_step.
Qed.

Lemma sim_activation_order (m1 : Model R1 G1) (m2 : Model R2 G2) :
  alike SR SG m1 m2 → activation_order m1 = activation_order m2.
Proof.
  intros (_ & Ha & _ & _ & Hr & _). unfold activation_order, shuffle.
  rewrite Ha. by apply shuffle_from_sim.
Qed.

Lemma sim_step_outcome (m1 : Model R1 G1) (m2 : Model R2 G2) :
  alike SR SG m1 m2 → (MoneyModel_step m1).1 = (MoneyModel_step m2).1.
Proof.
  intros Hm. destruct (corr_MoneyModel_step m1 m2 Hm) as [Ho _].
  destruct (MoneyModel_step m1).1 as [e1|[]],
           (MoneyModel_step m2).1 as [e2|[]]; simpl in Ho; by try subst.
Qed.

End Draws.

(** * The claims *)

(** C1 (conservation).  In every reachable state of a model the sum of all
    agents' wealth after one call to [step] equals the sum before the call,
    whether the call returns or raises; hence it is the same after any
    number of further calls.  The population is arbitrary. *)
Theorem wealth_conservation {R G} (m : Model R G) :
  reachable m →
  total_wealth (after_step m) = total_wealth m ∧
  ∀ k, total_wealth (after_steps k m) = total_wealth m.
Proof. intros _. split; [apply step_total | intros k; apply steps_total]. Qed.

Lemma wealth_conservation_witness :
  reachable crowded ∧
  total_wealth (after_step crowded) = total_wealth crowded ∧
  ∀ k, total_wealth (after_steps k crowded) = total_wealth crowded.
Proof.
  assert (reachable crowded) as H.
  { apply (reach_init tape tape 2 10 10 0). vm_compute. reflexivity. }
  split; [exact H | exact (wealth_conservation crowded H)].
Defined.

(** The instances are what the constructor builds on the tape generator. *)
Lemma crowded_constructed : MoneyModel_init tape tape 2 10 10 0 = inr crowded.
Proof. vm_compute. reflexivity. Qed.

Lemma lonely_constructed : MoneyModel_init tape tape 1 1 1 0 = inr lonely.
Proof. vm_compute. reflexivity. Qed.

Lemma narrow_constructed :
  ∃ m, MoneyModel_init tape tape 2 2 1 0 = inr m ∧
       set_random ([1; 0; 0; 1]%nat : gen_state tape) m = narrow.
Proof. eexists. split; vm_compute; reflexivity. Qed.

(** C2 (transfer).  The acting agent draws the receiver from all the agents
    of its cell, itself included.  In the model built with two agents on a
    10 x 10 grid both agents stand on (0,0); agent 0 has wealth 1, its
    transfer phase draws agent 0 itself and leaves every wealth as it was:
    no unit moves to the other occupant.  The same happens within a tick on
    the 2 x 1 grid: both agents move to (1,0), the second to act has wealth
    1, shares its cell with the first, draws itself, and the tick ends with
    the wealth it began with. *)
Theorem give_money_may_choose_self :
  (contents (grid crowded) (0, 0) = [0%nat; 1%nat] ∧
   wealths crowded = [1; 1] ∧
   (random_choice (contents (grid crowded) (0, 0)) crowded).1 = inr 0%nat ∧
   (MoneyAgent_give_money 0 crowded).1 = inr () ∧
   wealths (MoneyAgent_give_money 0 crowded).2 = [1; 1]) ∧
  (activation_order narrow = [0%nat; 1%nat] ∧
   (MoneyModel_step narrow).1 = inr () ∧
   agents (after_step narrow)
     = [mkAgent (Some (1, 0)) 1; mkAgent (Some (1, 0)) 1] ∧
   contents (grid (after_step narrow)) (1, 0) = [0%nat; 1%nat]).
Proof. vm_compute. repeat split. Qed.

(** C3 (move on an empty neighbourhood), as amended.  For an agent whose
    radius-1 Moore neighbourhood without the centre is empty, the move
    phase raises IndexError, the draw being taken from an empty sequence;
    the store, hence the agent's position, is left unchanged, and the
    agent's step raises the same error without reaching the transfer. *)
Theorem move_empty_neighborhood {R G} (m : Model R G) (self : AgentId) ag p :
  agents m !! self = Some ag → pos ag = Some p →
  get_neighborhood (grid m) p false 1 = [] →
  MoneyAgent_move self m = (inl IndexError, m) ∧
  MoneyAgent_step self m = (inl IndexError, m).
Proof.
  intros Hs Hp Hempty. pose proof (move_empty _ _ _ _ Hs Hp Hempty) as Hmove.
  split; [done|]. unfold MoneyAgent_step. by rewrite (bind_fail _ _ _ _ _ Hmove).
Qed.

Lemma move_empty_neighborhood_witness :
  agents lonely !! 0%nat = Some (mkAgent (Some (0, 0)) 1) ∧
  get_neighborhood (grid lonely) (0, 0) false 1 = [] ∧
  MoneyAgent_move 0 lonely = (inl IndexError, lonely) ∧
  MoneyAgent_step 0 lonely = (inl IndexError, lonely).
Proof.
  split; [reflexivity|]. split; [vm_compute; reflexivity|].
  apply (move_empty_neighborhood lonely 0%nat (mkAgent (Some (0, 0)) 1) (0, 0)).
  - reflexivity.
  - reflexivity.
  - vm_compute. reflexivity.
Defined.

(** C3 as stated fails on the one-cell grid built by
    [MoneyModel(n=1, width=1, height=1)]. *)
Lemma empty_move_raises_on_single_cell : ¬ empty_move_is_noop lonely 0.
Proof.
  intros H.
  destruct (H (mkAgent (Some (0, 0)) 1) (0, 0)) as [_ Hstep].
  - reflexivity.
  - reflexivity.
  - vm_compute. reflexivity.
  - vm_compute in Hstep. discriminate.
Qed.

(** C4 (inequality coefficient).  For a model whose [num_agents] is the
    number N > 0 of its agents and whose wealth sums to more than 0,
    [compute_gini] returns 1 + 1/N − 2B for the wealth values sorted
    ascending into x[0..N-1] and B = (Σ_i x[i]·(N−i)) / (N·Σx).  Division is
    exact. *)
Theorem compute_gini_formula {R G} (m : Model R G) (x : list Z) :
  num_agents m = length (agents m) →
  (0 < num_agents m)%nat →
  0 < total_wealth m →
  x ≡ₚ wealths m → Sorted Z.le x →
  compute_gini m = inr (gini_formula x).
Proof.
  intros HN Hpos Hsum Hperm Hsorted.
  rewrite <- (sorted_unique _ _ Hperm Hsorted).
  apply compute_gini_defined; [done|]. lia.
Qed.

Lemma compute_gini_formula_witness :
  wealths uneven = [2; 0; 1] ∧
  compute_gini uneven = inr (gini_formula [0; 1; 2]).
Proof.
  split; [reflexivity|].
  apply (compute_gini_formula uneven [0; 1; 2]).
  - reflexivity.
  - simpl. lia.
  - vm_compute. reflexivity.
  - change (wealths uneven) with [2; 0; 1].
    apply (perm_trans (l' := [0; 2; 1])); [|apply perm_swap].
    apply perm_skip, perm_swap.
  - repeat constructor; vm_compute; discriminate.
Defined.

(** C5 (division by zero), as amended.  When the agents' wealth sums to 0,
    [compute_gini] raises ZeroDivisionError: the division is not guarded
    and no degenerate value is produced. *)
Theorem compute_gini_zero_wealth {R G} (m : Model R G) :
  total_wealth m = 0 → compute_gini m = inl ZeroDivisionError.
Proof. intros H. apply compute_gini_undefined. rewrite H. lia. Qed.

Lemma compute_gini_zero_wealth_witness :
  total_wealth broke = 0 ∧ compute_gini broke = inl ZeroDivisionError.
Proof.
  split; [reflexivity|].
  apply (compute_gini_zero_wealth broke). reflexivity.
Defined.

(** C5 as stated fails on a model of one agent of wealth 0. *)
Lemma zero_wealth_raises : ¬ zero_wealth_has_value broke.
Proof.
  intros H. destruct H as [v Hv].
  - simpl. lia.
  - reflexivity.
  - vm_compute in Hv. discriminate.
Qed.

(** C6 (non-negativity).  In every reachable state, after construction and
    after any number of calls to [step], every agent's wealth is an integer
    that is at least 0. *)
Theorem wealth_nonnegative {R G} (m : Model R G) :
  reachable m → ∀ ag, ag ∈ agents m → 0 ≤ wealth ag.
Proof.
  intros Hm ag Hag. apply reachable_nonneg in Hm.
  unfold nonneg, wealths in Hm. rewrite Forall_fmap, Forall_forall in Hm.
  by apply (Hm ag).
Qed.

Lemma wealth_nonnegative_witness :
  reachable (after_step crowded) ∧
  ∀ ag, ag ∈ agents (after_step crowded) → 0 ≤ wealth ag.
Proof.
  assert (reachable (after_step crowded)) as H.
  { apply reach_step, (reach_init tape tape 2 10 10 0).
    vm_compute. reflexivity. }
  split; [exact H | exact (wealth_nonnegative _ H)].
Defined.



(** C8 (structure of a tick), as amended.  A call to [step] draws the
    activation order from the shared random source, whose state it
    advances; the order is a permutation of the population, so that every
    agent is named exactly once; the agents' steps run one after the other
    in that order, and the capture runs after them.  When the call returns,
    the step of every agent of the order has run to its end and exactly one
    value, computed on the state left by the last agent, has been appended
    to the series.  When the step of an agent raises, the call raises the
    same error and leaves the store as that agent's step left it: the
    agents that follow in the order are not run and there is no capture.
    Whenever the call raises, nothing has been appended.  The order is not
    fixed: on the tape generator every permutation of the population is the
    order drawn in some state of the random source. *)
Theorem step_structure {R G} (m : Model R G) :
  let drawn := shuffle R (seq 0 (length (agents m))) (random m) in
  let order := activation_order m in
  order = drawn.1 ∧
  order ≡ₚ seq 0 (length (agents m)) ∧
  NoDup order ∧
  (∀ a, a ∈ order ↔ (a < length (agents m))%nat) ∧
  MoneyModel_step m =
    bind (for_each order MoneyAgent_step) (λ _, collect)
      (set_random drawn.2 m) ∧
  (∀ m', MoneyModel_step m = (inr (), m') →
     ∃ m1 v,
       for_each order MoneyAgent_step (set_random drawn.2 m) = (inr (), m1) ∧
       compute_gini m1 = inr v ∧
       agents m' = agents m1 ∧ grid m' = grid m1 ∧
       model_vars (datacollector m') = model_vars (datacollector m) ++ [v] ∧
       agent_vars (datacollector m') =
         agent_vars (datacollector m)
         ++ [imap (λ i ag, (i, wealth ag)) (agents m1)]) ∧
  (∀ before a after m1 e m2,
     order = before ++ a :: after →
     for_each before MoneyAgent_step (set_random drawn.2 m) = (inr (), m1) →
     MoneyAgent_step a m1 = (inl e, m2) →
     MoneyModel_step m = (inl e, m2)) ∧
  (∀ e m', MoneyModel_step m = (inl e, m') →
     datacollector m' = datacollector m) ∧
  (∀ (m0 : Model tape G) target,
     target ≡ₚ seq 0 (length (agents m0)) →
     ∃ t, activation_order (set_random t m0) = target).
Proof.
  intros drawn order.
  assert (∀ m1, (for_each order MoneyAgent_step (set_random drawn.2 m)).2 = m1 →
                datacollector m1 = datacollector m) as Hdc.
  { intros m1 <-.
    by rewrite (keeps_for_each datacollector order _ agent_step_datacollector). }
  assert (order ≡ₚ seq 0 (length (agents m))) as Hperm
    by apply shuffle_Permutation.
  split; [done|]. split; [done|].
  split; [rewrite Hperm; apply NoDup_seq|].
  split; [intros a; rewrite Hperm, elem_of_seq; lia|].
  split; [apply step_unfold|]. split; [|split; [|split]].
  - intros m'. rewrite step_unfold. fold drawn order.
    destruct (for_each order MoneyAgent_step (set_random drawn.2 m))
      as [[e|[]] m1] eqn:E.
    { by rewrite (bind_fail _ _ _ _ _ E). }
    rewrite (bind_run _ _ _ _ _ E). intros Hc.
    destruct (collect_inv _ _ Hc) as (v & Hv & ->).
    exists m1, v. simpl. by rewrite (Hdc m1 eq_refl).
  - intros before a after m1 e m2 Horder Hbefore Ha.
    rewrite step_unfold. fold drawn order. rewrite Horder.
    apply bind_fail. by apply (for_each_raise _ _ _ _ _ _ _ _ Hbefore Ha).
  - intros e m'. rewrite step_unfold. fold drawn order.
    destruct (for_each order MoneyAgent_step (set_random drawn.2 m))
      as [[e'|[]] m1] eqn:E.
    { rewrite (bind_fail _ _ _ _ _ E). intros [= _ <-]. by apply Hdc. }
    rewrite (bind_run _ _ _ _ _ E).
    unfold collect, bind, get, lift, modify.
    destruct (compute_gini m1); intros [= _ <-]. by apply Hdc.
  - intros m0 target Htarget. unfold activation_order. simpl.
    by apply shuffle_any.
Qed.

Lemma step_structure_witness :
  (∃ m', MoneyModel_step crowded = (inr (), m') ∧
         length (model_vars (datacollector m')) = 2%nat) ∧
  MoneyModel_step cramped =
    (inl IndexError, set_random ([] : gen_state tape) cramped) ∧
  (∃ t, activation_order (set_random t crowded) = [0; 1]%nat) ∧
  (∃ t, activation_order (set_random t crowded) = [1; 0]%nat).
Proof.
  destruct (step_structure crowded) as (_ & _ & _ & _ & _ & H & _ & _ & Hany).
  destruct (step_structure cramped) as (_ & _ & _ & _ & _ & _ & Hraise & _).
  split; [|split; [|split]].
  - destruct (MoneyModel_step crowded) as [[e|[]] m'] eqn:E.
    { vm_compute in E. discriminate. }
    exists m'. split; [reflexivity|].
    destruct (H m' eq_refl) as (m1 & v & _ & _ & _ & _ & -> & _).
    rewrite length_app. reflexivity.
  - apply (Hraise [] 1%nat [0%nat] (set_random ([] : gen_state tape) cramped)).
    + reflexivity.
    + reflexivity.
    + vm_compute. reflexivity.
  - apply (Hany crowded). reflexivity.
  - apply (Hany crowded). apply perm_swap.
Defined.

(** C8 as stated fails on the one-cell grid built by
    [MoneyModel(n=2, width=1, height=1, seed=0)]: the first call to [step]
    raises in the move of the first agent of the order. *)
Lemma tick_raises_on_single_cell : ¬ every_tick_completes tape tape 2 1 1 0.
Proof.
  intros H.
  destruct (H cramped) with (k := 0%nat) as (m1 & m' & Hrun & _).
  - vm_compute. reflexivity.
  - vm_compute in Hrun. discriminate.
Qed.

(** C9 (neighbourhood on the torus).  The model fixes the wrap-around
    policy at construction.  On the 10 x 10 grid of a constructed model, at
    construction and after any number of ticks, the radius-1 Moore
    neighbourhood of (0,0) without the centre is the eight positions
    (9,9), (9,0), (9,1), (0,9), (0,1), (1,9), (1,0), (1,1). *)
Theorem neighborhood_torus_10x10 {R G} n seed (m : Model R G) k :
  MoneyModel_init R G n 10 10 seed = inr m →
  let g := grid (after_steps k m) in
  torus g = true ∧
  get_neighborhood g (0, 0) false 1 =
    [(9, 9); (9, 0); (9, 1); (0, 9); (0, 1); (1, 9); (1, 0); (1, 1)].
Proof.
  intros Hinit g.
  assert (shape g = (10, 10, true)) as Hshape.
  { unfold g. rewrite steps_shape. by eapply init_shape. }
  split; [by inversion Hshape|].
  rewrite (get_neighborhood_shape g (mkGrid 10 10 true ∅)) by done.
  vm_compute. reflexivity.
Qed.

Lemma neighborhood_torus_10x10_witness :
  MoneyModel_init tape tape 2 10 10 0 = inr crowded ∧
  get_neighborhood (grid (after_steps 3 crowded)) (0, 0) false 1 =
    [(9, 9); (9, 0); (9, 1); (0, 9); (0, 1); (1, 9); (1, 0); (1, 1)].
Proof.
  assert (MoneyModel_init tape tape 2 10 10 0 = inr crowded) as H.
  { vm_compute. reflexivity. }
  split; [exact H|].
  exact (proj2 (neighborhood_torus_10x10 2%nat 0 crowded 3 H)).
Defined.

(** C10 (initial wealth).  Every agent is constructed with wealth 1: right
    after the construction of a model with [n] agents there are [n] agents,
    each of wealth 1, and their total wealth is [n]; it is still [n] after
    any number of calls to [step]. *)
Theorem initial_wealth {R G} n w h seed (m : Model R G) :
  MoneyModel_init R G n w h seed = inr m →
  length (agents m) = n ∧
  (∀ ag, ag ∈ agents m → wealth ag = 1) ∧
  total_wealth m = Z.of_nat n ∧
  ∀ k, total_wealth (after_steps k m) = Z.of_nat n.
Proof.
  intros Hinit. pose proof (init_wealths _ _ _ _ _ Hinit) as Hw.
  assert (total_wealth m = Z.of_nat n) as Htotal.
  { rewrite total_wealth_wealths, Hw, sum_replicate. lia. }
  split; [by destruct (init_population _ _ _ _ _ Hinit)|].
  split; [|split; [done|]].
  - intros ag Hag.
    assert (wealth ag ∈ replicate n 1) as Hin.
    { rewrite <- Hw. by apply list_elem_of_fmap_2. }
    by apply elem_of_replicate in Hin as [-> _].
  - intros k. by rewrite steps_total.
Qed.

Lemma initial_wealth_witness :
  MoneyModel_init tape tape 2 10 10 0 = inr crowded ∧
  length (agents crowded) = 2%nat ∧
  (∀ ag, ag ∈ agents crowded → wealth ag = 1) ∧
  total_wealth crowded = 2 ∧
  ∀ k, total_wealth (after_steps k crowded) = 2.
Proof.
  assert (MoneyModel_init tape tape 2 10 10 0 = inr crowded) as H.
  { vm_compute. reflexivity. }
  split; [exact H | exact (initial_wealth 2%nat 10 10 0 crowded H)].
Defined.

(** * Further properties *)

#[local] Set Warnings "-clear-no-such-hyp".

(** ** Bounds on the inequality coefficient *)

Lemma weighted_cons k x l : weighted k (x :: l) = x * k + weighted (k - 1) l.
Proof.
  unfold weighted. simpl. rewrite sum_cons. f_equal; [lia|]. f_equal.
  apply imap_ext. intros i y _. simpl. lia.
Qed.

Lemma sum_ge_scaled x l : Forall (Z.le x) l → Z.of_nat (length l) * x ≤ sum l.
Proof.
  induction 1 as [|y l Hy _ IH]; [done|].
  rewrite sum_cons. simpl length. lia.
Qed.

Lemma weighted_lower k l :
  Forall (Z.le 0) l → Z.of_nat (length l) ≤ k → sum l ≤ weighted k l.
Proof.
  intros Hl. revert k. induction Hl as [|x l Hx _ IH]; intros k Hk; [done|].
  rewrite weighted_cons, sum_cons. simpl length in Hk.
  specialize (IH (k - 1)). nia.
Qed.

Lemma weighted_upper l :
  Sorted Z.le l →
  2 * weighted (Z.of_nat (length l)) l ≤ (Z.of_nat (length l) + 1) * sum l.
Proof.
  intros Hs. apply (Sorted_StronglySorted _) in Hs.
  induction Hs as [|x l _ IH Hx]; [done|].
  rewrite weighted_cons, sum_cons. simpl length.
  replace (Z.of_nat (S (length l)) - 1) with (Z.of_nat (length l)) by lia.
  pose proof (sum_ge_scaled x l Hx). nia.
Qed.

Lemma gini_value (N S num : Z) :
  0 < N → 0 < S →
  (1 + 1 / inject_Z N - 2 * (inject_Z num / inject_Z (N * S)) ==
   inject_Z ((N + 1) * S - 2 * num) / inject_Z (N * S))%Q.
Proof.
  intros HN HS.
  assert (¬ (inject_Z N == 0)%Q) by (unfold Qeq; simpl; lia).
  assert (¬ (inject_Z S == 0)%Q) by (unfold Qeq; simpl; lia).
  unfold Z.sub.
  rewrite !inject_Z_plus, !inject_Z_opp, !inject_Z_mult, !inject_Z_plus.
  change (inject_Z 1) with 1%Q. change (inject_Z 2) with 2%Q.
  field. done.
Qed.

Lemma Qdiv_le (a b c : Z) :
  0 < c → a ≤ b → (inject_Z a / inject_Z c <= inject_Z b / inject_Z c)%Q.
Proof.
  intros Hc Hab. destruct c as [|p|p]; try lia.
  rewrite <- !Qmake_Qdiv. unfold Qle. simpl. nia.
Qed.

Lemma Qdiv_lt (a b c : Z) :
  0 < c → a < b → (inject_Z a / inject_Z c < inject_Z b / inject_Z c)%Q.
Proof.
  intros Hc Hab. destruct c as [|p|p]; try lia.
  rewrite <- !Qmake_Qdiv. unfold Qlt. simpl. nia.
Qed.

Lemma one_minus_inv (N S : Z) :
  0 < N → 0 < S →
  (1 - 1 / inject_Z N == inject_Z ((N - 1) * S) / inject_Z (N * S))%Q.
Proof.
  intros HN HS.
  assert (¬ (inject_Z N == 0)%Q) by (unfold Qeq; simpl; lia).
  assert (¬ (inject_Z S == 0)%Q) by (unfold Qeq; simpl; lia).
  unfold Z.sub.
  rewrite !inject_Z_mult, !inject_Z_plus, !inject_Z_opp.
  change (inject_Z 1) with 1%Q. field. done.
Qed.

Lemma Qdiv_same (c : Z) : 0 < c → (inject_Z c / inject_Z c == 1)%Q.
Proof.
  intros Hc. apply Qmult_inv_r. unfold Qeq. simpl. lia.
Qed.

Lemma gini_value_bounds (N S num : Z) :
  0 < N → 0 < S → S ≤ num → 2 * num ≤ (N + 1) * S →
  let g := (1 + 1 / inject_Z N - 2 * (inject_Z num / inject_Z (N * S)))%Q in
  (0 <= g)%Q ∧ (g <= 1 - 1 / inject_Z N)%Q ∧ (g < 1)%Q.
Proof.
  intros HN HS Hlo Hhi g. unfold g.
  rewrite gini_value, one_minus_inv by done.
  split; [|split].
  - apply Qle_shift_div_l; unfold Qlt, Qle; simpl; nia.
  - apply Qdiv_le; nia.
  - apply Qlt_le_trans with (inject_Z (N * S) / inject_Z (N * S))%Q.
    + apply Qdiv_lt; nia.
    + rewrite Qdiv_same by nia. apply Qle_refl.
Qed.

Lemma gini_value_zero (N S num : Z) :
  0 < N → 0 < S → 2 * num = (N + 1) * S →
  (1 + 1 / inject_Z N - 2 * (inject_Z num / inject_Z (N * S)) == 0)%Q.
Proof.
  intros HN HS Hnum. rewrite gini_value by done.
  replace ((N + 1) * S - 2 * num) with 0 by lia.
  unfold Qdiv. apply Qmult_0_l.
Qed.

(** ** Agents and grid agree *)

Lemma contents_set_cell g p l q :
  contents (set_cell g p l) q = if decide (p = q) then l else contents g q.
Proof.
  unfold contents, set_cell. simpl. rewrite lookup_insert.
  by case_decide.
Qed.

Lemma elem_of_cell_add g p a b q :
  b ∈ contents (cell_add g p a) q ↔ b ∈ contents g q ∨ (b = a ∧ q = p).
Proof.
  unfold cell_add. case_decide as Hin.
  - split; [by left|]. intros [?|[-> ->]]; done.
  - rewrite contents_set_cell. case_decide as Hpq.
    + subst q. rewrite elem_of_app, list_elem_of_singleton. naive_solver.
    + naive_solver.
Qed.

Lemma elem_of_cell_remove g p a b q :
  b ∈ contents (cell_remove g p a) q ↔ b ∈ contents g q ∧ ¬ (b = a ∧ q = p).
Proof.
  unfold cell_remove. rewrite contents_set_cell. case_decide as Hpq.
  - subst q. rewrite list_elem_of_filter. naive_solver.
  - naive_solver.
Qed.

Lemma NoDup_cell_add g p a :
  (∀ q, NoDup (contents g q)) → ∀ q, NoDup (contents (cell_add g p a) q).
Proof.
  intros Hg q. unfold cell_add. case_decide as Hin; [done|].
  rewrite contents_set_cell. case_decide; [|done].
  apply NoDup_app. split; [done|]. split; [|apply NoDup_singleton].
  intros b Hb ->%list_elem_of_singleton. done.
Qed.

Lemma NoDup_cell_remove g p a :
  (∀ q, NoDup (contents g q)) → ∀ q, NoDup (contents (cell_remove g p a) q).
Proof.
  intros Hg q. unfold cell_remove. rewrite contents_set_cell.
  case_decide; [|done]. by apply NoDup_filter.
Qed.

Lemma in_bounds_shape g g' p : shape g = shape g' → in_bounds g p = in_bounds g' p.
Proof. unfold shape, in_bounds. by intros [= -> -> _]. Qed.

Lemma in_bounds_wrap g p :
  0 < width g → 0 < height g →
  in_bounds g (p.1 mod width g, p.2 mod height g) = true.
Proof.
  intros Hw Hh. unfold in_bounds. simpl.
  pose proof (Z.mod_pos_bound p.1 (width g) Hw).
  pose proof (Z.mod_pos_bound p.2 (height g) Hh).
  repeat (apply andb_true_intro; split); lia.
Qed.

Lemma consistent_relocate l g a ag q :
  consistent l g → l !! a = Some ag → in_bounds g q = true →
  consistent (<[a := mkAgent (Some q) (wealth ag)]> l)
             (cell_add (vacate g a ag) q a).
Proof.
  intros (Ht & Hw & Hh & Hpl & Hli & Hnd) Ha Hq.
  assert (a < length l)%nat as Hlt by by eapply lookup_lt_Some.
  assert (shape (cell_add (vacate g a ag) q a) = shape g) as Hsh.
  { rewrite shape_cell_add. unfold vacate. by destruct (pos ag). }
  assert (∀ b p, b ∈ contents (vacate g a ag) p ↔
                 b ∈ contents g p ∧ b ≠ a) as Hvac.
  { intros b p. unfold vacate. destruct (pos ag) as [q0|] eqn:Hpos.
    - rewrite elem_of_cell_remove. split.
      + intros [Hb Hne]. split; [done|]. intros ->.
        destruct (Hli _ _ Hb) as (ag' & Hag' & Hp'). naive_solver.
      + naive_solver.
    - split; [|naive_solver]. intros Hb. split; [done|]. intros ->.
      destruct (Hli _ _ Hb) as (ag' & Hag' & Hp'). naive_solver. }
  pose proof Hsh as [= Hw' Hh' Ht'].
  split; [congruence|]. split; [congruence|]. split; [congruence|].
  split; [|split].
  - intros b agb p Hb Hp. rewrite (in_bounds_shape _ g) by done.
    rewrite elem_of_cell_add, Hvac.
    destruct (decide (b = a)) as [->|Hne].
    + rewrite list_lookup_insert_eq in Hb by done. simplify_eq/=. auto.
    + rewrite list_lookup_insert_ne in Hb by done.
      destruct (Hpl _ _ _ Hb Hp). auto.
  - intros b p. rewrite elem_of_cell_add, Hvac. intros [[Hb Hne]|[-> ->]].
    + rewrite list_lookup_insert_ne by done. by apply Hli.
    + rewrite list_lookup_insert_eq by done. eauto.
  - apply NoDup_cell_add. unfold vacate.
    destruct (pos ag); [by apply NoDup_cell_remove|done].
Qed.

Lemma consistent_pos_ext l l' g :
  pos <$> l' = pos <$> l → consistent l g → consistent l' g.
Proof.
  intros Hpos (Ht & Hw & Hh & Hpl & Hli & Hnd).
  assert (∀ a p, (∃ ag, l' !! a = Some ag ∧ pos ag = Some p) ↔
                 (∃ ag, l !! a = Some ag ∧ pos ag = Some p)) as Heq.
  { intros a p.
    assert ((pos <$> l') !! a = (pos <$> l) !! a) as Ha by by rewrite Hpos.
    rewrite !list_lookup_fmap in Ha.
    split; intros (ag0 & H0 & Hp); rewrite H0 in Ha; simpl in Ha.
    - destruct (l !! a) as [ag|]; [|done]. injection Ha as Ha.
      exists ag. split; [done|congruence].
    - destruct (l' !! a) as [ag|]; [|done]. injection Ha as Ha.
      exists ag. split; [done|congruence]. }
  repeat split; try done.
  - destruct (proj1 (Heq a p)) as (ag0 & ? & ?); [eauto|]. by eapply Hpl.
  - destruct (proj1 (Heq a p)) as (ag0 & ? & ?); [eauto|]. by eapply Hpl.
  - intros a p Ha. apply Heq. by apply Hli.
Qed.

Lemma pos_insert_same (l : list Agent) (a : nat) (s : Agent) (w : Z) :
  l !! a = Some s → pos <$> <[a := mkAgent (pos s) w]> l = pos <$> l.
Proof.
  intros Hs. rewrite list_fmap_insert. simpl. apply list_insert_id.
  by rewrite list_lookup_fmap, Hs.
Qed.

Lemma pos_debit_credit self other l :
  pos <$> debit self (credit other l) = pos <$> l.
Proof.
  transitivity (pos <$> credit other l).
  - unfold debit. destruct (credit other l !! self) eqn:Hs; [|done].
    by apply pos_insert_same.
  - unfold credit. destruct (l !! other) eqn:Ho; [|done].
    by apply pos_insert_same.
Qed.

Lemma placed_pos_ext l l' : pos <$> l' = pos <$> l → placed l → placed l'.
Proof.
  unfold placed. intros Hpos Hl.
  apply (Forall_fmap pos (λ p, is_Some p)) in Hl.
  apply (Forall_fmap pos (λ p, is_Some p)). by rewrite Hpos.
Qed.

Lemma placed_relocate l a ag q :
  placed l → placed (<[a := mkAgent (Some q) (wealth ag)]> l).
Proof. intros Hl. apply Forall_insert; [done|]. simpl. eauto. Qed.

Lemma offsets_1 :
  offsets 1 = [(-1, -1); (-1, 0); (-1, 1); (0, -1); (0, 0); (0, 1);
               (1, -1); (1, 0); (1, 1)].
Proof. reflexivity. Qed.

Lemma neighborhood_wrapped g p q :
  torus g = true → q ∈ get_neighborhood g p false 1 →
  q ≠ p ∧ ∃ d, d ∈ offsets 1 ∧
    q = ((p.1 + d.1) mod width g, (p.2 + d.2) mod height g).
Proof.
  intros Ht. unfold get_neighborhood. rewrite Ht.
  rewrite list_elem_of_filter, elem_of_remove_dups, list_elem_of_fmap.
  intros [Hne (r & -> & Hr)]. split; [done|].
  apply list_elem_of_fmap in Hr as (d & -> & Hd). eauto.
Qed.

Lemma neighborhood_intro g p d :
  torus g = true → d ∈ offsets 1 →
  let q := ((p.1 + d.1) mod width g, (p.2 + d.2) mod height g) in
  q ≠ p → q ∈ get_neighborhood g p false 1.
Proof.
  intros Ht Hd q Hq. unfold get_neighborhood. rewrite Ht.
  rewrite list_elem_of_filter, elem_of_remove_dups. split; [done|].
  apply list_elem_of_fmap. eexists (_, _). split; [reflexivity|].
  apply list_elem_of_fmap. exists d. done.
Qed.

Lemma succ_mod_ne x w : 2 ≤ w → (x + 1) mod w ≠ x.
Proof.
  intros Hw Heq.
  destruct (decide (0 ≤ x < w)) as [Hx|Hx].
  - destruct (decide (x + 1 < w)).
    + rewrite Z.mod_small in Heq by lia. lia.
    + replace (x + 1) with w in Heq by lia.
      rewrite Z.mod_same in Heq by lia. lia.
  - pose proof (Z.mod_pos_bound (x + 1) w ltac:(lia)). lia.
Qed.

Lemma neighborhood_nonempty g p :
  torus g = true → 2 ≤ width g ∨ 2 ≤ height g →
  get_neighborhood g p false 1 ≠ [].
Proof.
  intros Ht [Hw|Hh].
  - pose proof (neighborhood_intro g p (1, 0) Ht) as H. cbn [fst snd] in H.
    intros Hnil. rewrite Hnil in H. eapply not_elem_of_nil, H.
    + rewrite offsets_1. set_solver.
    + destruct p as [x y]. simpl. intros [= Hx _]. by eapply succ_mod_ne.
  - pose proof (neighborhood_intro g p (0, 1) Ht) as H. cbn [fst snd] in H.
    intros Hnil. rewrite Hnil in H. eapply not_elem_of_nil, H.
    + rewrite offsets_1. set_solver.
    + destruct p as [x y]. simpl. intros [= _ Hy]. by eapply succ_mod_ne.
Qed.

Lemma neighborhood_single_cell g p :
  torus g = true → width g = 1 → height g = 1 → in_bounds g p = true →
  get_neighborhood g p false 1 = [].
Proof.
  intros Ht Hw Hh Hp.
  assert (p = (0, 0)) as ->.
  { unfold in_bounds in Hp. rewrite Hw, Hh in Hp. destruct p as [x y].
    simpl in Hp. f_equal; lia. }
  rewrite (get_neighborhood_shape g (mkGrid 1 1 true ∅)).
  - reflexivity.
  - unfold shape. simpl. congruence.
Qed.

Section Runs.
Context {R G : Generator}.
Implicit Types (m : Model R G) (a self other : AgentId).

Lemma choice_nonempty {A} (seq : list A) (g : gen_state R) :
  seq ≠ [] → ∃ x g', choice R seq g = inr (x, g') ∧ x ∈ seq.
Proof.
  intros Hne. unfold choice. destruct seq as [|y seq']; [done|].
  pose proof (gen_below_lt R (length (y :: seq')) g ltac:(simpl; lia)) as Hlt.
  destruct (gen_below R (length (y :: seq')) g) as [i g']. simpl in Hlt.
  destruct (lookup_lt_is_Some_2 (y :: seq') i Hlt) as [x Hx].
  rewrite Hx. exists x, g'. split; [done|]. by eapply list_elem_of_lookup_2.
Qed.

Lemma random_choice_run {A} (seq : list A) m :
  seq ≠ [] →
  ∃ x g', x ∈ seq ∧ random_choice seq m = (inr x, set_random g' m).
Proof.
  intros Hne. destruct (choice_nonempty seq (random m) Hne) as (x & g' & Hc & Hx).
  exists x, g'. split; [done|]. unfold random_choice. by rewrite Hc.
Qed.

Lemma random_choice_cases {A} (seq : list A) m r m1 :
  random_choice seq m = (r, m1) →
  (∃ g', m1 = set_random g' m) ∧ ∀ x, r = inr x → x ∈ seq.
Proof.
  intros H. destruct (random_choice_inv _ _ _ _ H) as (_ & _ & Hin).
  split; [|done]. unfold random_choice in H.
  destruct (choice R seq (random m)) as [e|[x g']]; injection H as <- <-.
  - exists (random m). by destruct m.
  - by exists g'.
Qed.

Lemma move_agent_run a p m ag :
  torus (grid m) = true → agents m !! a = Some ag →
  move_agent a p m =
    (inr (), relocate a ag (p.1 mod width (grid m), p.2 mod height (grid m)) m).
Proof.
  intros Ht Ha. unfold move_agent.
  rewrite (bind_run _ _ m m m) by done.
  unfold torus_adj. rewrite Ht.
  erewrite (bind_run (lift _)) by reflexivity.
  rewrite (bind_run _ _ _ _ _ (agent_run _ _ _ Ha)).
  unfold relocate, vacate, set_pos, bind, modify, agent, ret.
  destruct (pos ag); simpl; rewrite Ha; reflexivity.
Qed.

Lemma place_agent_run a p m ag :
  torus (grid m) = true → agents m !! a = Some ag → pos ag = None →
  place_agent a p m =
    (inr (), relocate a ag (p.1 mod width (grid m), p.2 mod height (grid m)) m).
Proof.
  intros Ht Ha Hpos. unfold place_agent.
  rewrite (bind_run _ _ m m m) by done.
  unfold torus_adj. rewrite Ht.
  erewrite (bind_run (lift _)) by reflexivity.
  rewrite (bind_run _ _ _ _ _ (agent_run _ _ _ Ha)).
  unfold relocate, vacate, set_pos, bind, modify, agent. rewrite Hpos.
  simpl. rewrite Ha. reflexivity.
Qed.

Lemma wf_relocate a ag q m :
  wf m → agents m !! a = Some ag → in_bounds (grid m) q = true →
  wf (relocate a ag q m).
Proof.
  intros [Hc Hp] Ha Hq. split; simpl.
  - by apply consistent_relocate.
  - by apply placed_relocate.
Qed.

End Runs.

Lemma integers_length (G : Generator) lo hi n g :
  length (integers G lo hi n g).1 = n.
Proof.
  revert g. induction n as [|n IH]; intros g; simpl; [done|].
  destruct (gen_below G (Z.to_nat (hi - lo)) g) as [d g'].
  specialize (IH g'). destruct (integers G lo hi n g') as [ds g''].
  simpl in *. by rewrite IH.
Qed.

Section WfSteps.
Context {R G : Generator}.
Implicit Types (m : Model R G) (a self other : AgentId).

Lemma keeps_pos_set_wealth a w :
  keeps (R:=R) (G:=G) (λ m, pos <$> agents m) (set_wealth a w).
Proof.
  intros m. unfold set_wealth, bind, agent, modify.
  destruct (agents m !! a) as [ag|] eqn:Ha; simpl; [|done].
  by apply pos_insert_same.
Qed.

#[local] Hint Resolve keeps_pos_set_wealth : frame.

Lemma wf_ext m m' :
  grid m' = grid m → pos <$> agents m' = pos <$> agents m → wf m → wf m'.
Proof.
  intros Hg Hp [Hc Hpl]. split.
  - rewrite Hg. by eapply consistent_pos_ext.
  - by eapply placed_pos_ext.
Qed.

Lemma wf_set_random g m : wf m → wf (set_random g m).
Proof. done. Qed.

(** What a move does on a torus. *)
Lemma MoneyAgent_move_cases self m r m' :
  torus (grid m) = true → 0 < width (grid m) → 0 < height (grid m) →
  MoneyAgent_move self m = (r, m') →
  (∃ e, r = inl e ∧ agents m' = agents m ∧ grid m' = grid m) ∨
  (∃ ag p q g', r = inr () ∧
     agents m !! self = Some ag ∧ pos ag = Some p ∧
     q ∈ get_neighborhood (grid m) p false 1 ∧ q ≠ p ∧
     in_bounds (grid m) q = true ∧
     m' = relocate self ag q (set_random g' m)).
Proof.
  intros Ht Hw Hh. unfold MoneyAgent_move.
  rewrite (bind_run _ _ m m m) by done.
  destruct (self_pos self m) as [[e|p] m0] eqn:E;
    destruct (self_pos_inv _ _ _ _ E) as [-> Hp].
  { rewrite (bind_fail _ _ _ _ _ E). intros [= <- <-]. left. eauto. }
  destruct (Hp p eq_refl) as (ag & Hs & Hpos).
  rewrite (bind_run _ _ _ _ _ E).
  destruct (random_choice (get_neighborhood (grid m) p false 1) m)
    as [[e|q] m1] eqn:E2;
    destruct (random_choice_cases _ _ _ _ E2) as [[g' ->] Hin].
  { rewrite (bind_fail _ _ _ _ _ E2). intros [= <- <-]. left. eauto. }
  rewrite (bind_run _ _ _ _ _ E2).
  rewrite (move_agent_run self q (set_random g' m) ag) by done.
  intros [= <- <-]. right.
  destruct (neighborhood_wrapped _ _ _ Ht (Hin q eq_refl))
    as (Hne & d & Hd & Hq).
  assert (q = (q.1 mod width (grid m), q.2 mod height (grid m))) as Hidem.
  { rewrite Hq. simpl. by rewrite !Z.mod_mod by lia. }
  exists ag, p, q, g'. simpl. rewrite <- Hidem.
  repeat split; try done; [by apply Hin|].
  rewrite Hidem. by apply in_bounds_wrap.
Qed.

Lemma MoneyAgent_move_run self m ag :
  wf m → agents m !! self = Some ag →
  2 ≤ width (grid m) ∨ 2 ≤ height (grid m) →
  ∃ m', MoneyAgent_move self m = (inr (), m').
Proof.
  intros [(Ht & Hw & Hh & _) Hpl] Hs Hbig.
  destruct (Forall_lookup_1 _ _ _ _ Hpl Hs) as [p Hp].
  unfold MoneyAgent_move.
  rewrite (bind_run _ _ m m m) by done.
  rewrite (bind_run _ _ _ _ _ (self_pos_run _ _ _ _ Hs Hp)).
  destruct (random_choice_run (get_neighborhood (grid m) p false 1) m)
    as (q & g' & _ & Hrun); [by apply neighborhood_nonempty|].
  rewrite (bind_run _ _ _ _ _ Hrun).
  rewrite (move_agent_run self q (set_random g' m) ag) by done. eauto.
Qed.

Lemma preserves_wf_move self : preserves (R:=R) (G:=G) wf (MoneyAgent_move self).
Proof.
  intros m Hwf. destruct (MoneyAgent_move self m) as [r m'] eqn:E.
  destruct Hwf as [(Ht & Hw & Hh & Hrest) Hpl].
  destruct (MoneyAgent_move_cases _ _ _ _ Ht Hw Hh E)
    as [(e & -> & Ha & Hg)|(ag & p & q & g' & -> & Hs & Hp & _ & _ & Hq & ->)].
  - simpl. apply (wf_ext m); [done|by rewrite Ha|done].
  - simpl. by apply (wf_relocate self ag q (set_random g' m)).
Qed.

Lemma give_money_frame self :
  keeps (R:=R) (G:=G) (λ m, (grid m, pos <$> agents m))
    (MoneyAgent_give_money self).
Proof.
  intros m.
  assert (keeps (R:=R) (G:=G) grid (MoneyAgent_give_money self)) as H1
    by frame.
  assert (keeps (R:=R) (G:=G) (λ m, pos <$> agents m)
            (MoneyAgent_give_money self)) as H2.
  { frame. }
  by rewrite H1, H2.
Qed.

Lemma preserves_wf_give_money self :
  preserves (R:=R) (G:=G) wf (MoneyAgent_give_money self).
Proof.
  intros m Hwf. pose proof (give_money_frame self m) as [= Hg Hp].
  by apply (wf_ext m).
Qed.

Lemma preserves_wf_agent_step self :
  preserves (R:=R) (G:=G) wf (MoneyAgent_step self).
Proof.
  unfold MoneyAgent_step. apply preserves_bind; [apply preserves_wf_move|].
  intros _. apply preserves_bind.
  - intros m Hm. unfold agent. by destruct (agents m !! self).
  - intros s. destruct (decide _); [apply preserves_wf_give_money|].
    by intros m.
Qed.

Lemma preserves_wf_step : preserves (R:=R) (G:=G) wf MoneyModel_step.
Proof.
  unfold MoneyModel_step. apply preserves_bind.
  - apply preserves_shuffle_do; [done|]. apply preserves_wf_agent_step.
  - intros _ m Hm.
    assert (keeps (R:=R) (G:=G) grid collect) as H1 by frame.
    assert (keeps (R:=R) (G:=G) agents collect) as H2 by frame.
    apply (wf_ext m); [apply H1|by rewrite H2|done].
Qed.

Lemma give_money_returns self m :
  wf m → (self < length (agents m))%nat →
  ∃ m', MoneyAgent_give_money self m = (inr (), m').
Proof.
  intros [(_ & _ & _ & Hin & Hli & _) Hpl] Hlt.
  destruct (lookup_lt_is_Some_2 _ _ Hlt) as [ag Hs].
  destruct (Forall_lookup_1 _ _ _ _ Hpl Hs) as [p Hp].
  rewrite (give_money_run _ _ _ _ Hs Hp).
  destruct (decide _) as [Hlen|]; [|eauto].
  destruct (random_choice_run (contents (grid m) p) m)
    as (other & g' & Hother & ->).
  { intros Hnil. rewrite Hnil in Hlen. simpl in Hlen. lia. }
  destruct (Hli _ _ Hother) as (o & -> & _). eauto.
Qed.

Lemma agent_step_returns self m :
  wf m → (self < length (agents m))%nat →
  2 ≤ width (grid m) ∨ 2 ≤ height (grid m) →
  ∃ m', MoneyAgent_step self m = (inr (), m').
Proof.
  intros Hwf Hlt Hbig.
  destruct (lookup_lt_is_Some_2 _ _ Hlt) as [ag Hs].
  destruct (MoneyAgent_move_run _ _ _ Hwf Hs Hbig) as [m1 Hmove].
  unfold MoneyAgent_step. rewrite (bind_run _ _ _ _ _ Hmove).
  assert (wf m1) as Hwf1.
  { pose proof (preserves_wf_move self m Hwf) as H. by rewrite Hmove in H. }
  assert (length (agents m1) = length (agents m)) as Hlen.
  { assert (keeps (R:=R) (G:=G) (λ m, length (agents m))
              (MoneyAgent_move self)) as H by frame.
    specialize (H m). by rewrite Hmove in H. }
  destruct (lookup_lt_is_Some_2 (agents m1) self) as [s Hs1]; [lia|].
  rewrite (bind_run _ _ _ _ _ (agent_run _ _ _ Hs1)).
  destruct (decide _); [|eauto].
  apply give_money_returns; [done|lia].
Qed.

Lemma for_each_step_returns order m :
  wf m → 2 ≤ width (grid m) ∨ 2 ≤ height (grid m) →
  Forall (λ a, a < length (agents m))%nat order →
  ∃ m', for_each order MoneyAgent_step m = (inr (), m').
Proof.
  revert m. induction order as [|a order IH]; intros m Hwf Hbig Hall.
  { simpl. by eexists. }
  inversion Hall as [|?? Ha Hrest]; subst.
  destruct (agent_step_returns a m Hwf Ha Hbig) as [m1 Hstep].
  simpl. rewrite (bind_run _ _ _ _ _ Hstep).
  assert (keeps (R:=R) (G:=G) (λ m, (length (agents m), shape (grid m)))
            (MoneyAgent_step a)) as Hk.
  { intros m0.
    assert (keeps (R:=R) (G:=G) (λ m, length (agents m)) (MoneyAgent_step a))
      as H1 by frame.
    assert (keeps (R:=R) (G:=G) (λ m, shape (grid m)) (MoneyAgent_step a))
      as H2 by frame.
    by rewrite H1, H2. }
  specialize (Hk m). rewrite Hstep in Hk. injection Hk as Hlen Hw Hh Ht.
  apply IH.
  - pose proof (preserves_wf_agent_step a m Hwf) as H. by rewrite Hstep in H.
  - simpl in *. lia.
  - simpl in Hlen. by rewrite Hlen.
Qed.

Lemma compute_gini_ext m m' :
  agents m' = agents m → num_agents m' = num_agents m →
  compute_gini m' = compute_gini m.
Proof. unfold compute_gini. by intros -> ->. Qed.

Lemma collect_frame :
  keeps (R:=R) (G:=G) (λ m, (agents m, num_agents m, grid m)) collect.
Proof.
  intros m.
  assert (keeps (R:=R) (G:=G) agents collect) as H1 by frame.
  assert (keeps (R:=R) (G:=G) num_agents collect) as H2 by frame.
  assert (keeps (R:=R) (G:=G) grid collect) as H3 by frame.
  by rewrite H1, H2, H3.
Qed.

Lemma collect_returns m v :
  compute_gini m = inr v → ∃ m', collect m = (inr (), m').
Proof.
  intros Hv. unfold collect, bind, get, lift, modify. rewrite Hv. eauto.
Qed.

(** The capture of a tick works on a reachable population. *)
Lemma step_capture_defined m m1 :
  reachable m →
  for_each (activation_order m) MoneyAgent_step
    (set_random (shuffle R (seq 0 (length (agents m))) (random m)).2 m)
    = (inr (), m1) →
  ∃ v, compute_gini m1 = inr v.
Proof.
  intros Hm Hfor.
  assert (after_step m = (collect m1).2) as Hafter.
  { unfold after_step. rewrite step_unfold.
    by rewrite (bind_run _ _ _ _ _ Hfor). }
  pose proof (collect_frame m1) as [= Ha Hn _]. rewrite <- Hafter in Ha, Hn.
  rewrite <- (compute_gini_ext _ _ Ha Hn).
  rewrite (reachable_gini_defined (after_step m)) by by apply reach_step.
  eauto.
Qed.

Lemma activation_order_valid m :
  Forall (λ a, a < length (agents m))%nat (activation_order m).
Proof.
  apply Forall_forall. intros a Ha.
  unfold activation_order in Ha. rewrite shuffle_Permutation in Ha.
  apply elem_of_seq in Ha. lia.
Qed.

Lemma step_returns m :
  reachable m → wf m → 2 ≤ width (grid m) ∨ 2 ≤ height (grid m) →
  ∃ m', MoneyModel_step m = (inr (), m').
Proof.
  intros Hm Hwf Hbig. rewrite step_unfold.
  destruct (for_each_step_returns (activation_order m)
    (set_random (shuffle R (seq 0 (length (agents m))) (random m)).2 m))
    as [m1 Hfor]; [done|done|exact (activation_order_valid m)|].
  rewrite (bind_run _ _ _ _ _ Hfor).
  destruct (step_capture_defined m m1 Hm Hfor) as [v Hv].
  by eapply collect_returns.
Qed.

End WfSteps.

Lemma consistent_blank (R G : Generator) n w h seed :
  0 < w → 0 < h →
  consistent (agents (MoneyModel_blank R G n w h seed))
             (grid (MoneyModel_blank R G n w h seed)).
Proof.
  intros Hw Hh. repeat split; simpl; try done.
  - apply lookup_replicate in H as [-> _]. done.
  - apply lookup_replicate in H as [-> _]. done.
  - intros a p Ha. unfold contents in Ha. simpl in Ha.
    rewrite lookup_empty in Ha. by apply not_elem_of_nil in Ha.
  - intros p. unfold contents. simpl. rewrite lookup_empty. apply NoDup_nil_2.
Qed.

Section Construction.
Context {R G : Generator}.
Implicit Types (m : Model R G) (a : AgentId).

(** Placing agents that are not yet on the grid, each once. *)
Lemma place_all (l : list (AgentId * Coordinate)) m :
  consistent (agents m) (grid m) → NoDup l.*1 →
  (∀ a, a ∈ l.*1 → ∃ ag, agents m !! a = Some ag ∧ pos ag = None) →
  ∃ m', for_each l (λ aij, place_agent aij.1 aij.2) m = (inr (), m') ∧
        consistent (agents m') (grid m') ∧
        (∀ a, a ∈ l.*1 → ∃ ag, agents m' !! a = Some ag ∧ is_Some (pos ag)) ∧
        (∀ a, a ∉ l.*1 → agents m' !! a = agents m !! a).
Proof.
  revert m. induction l as [|[a p] l IH]; intros m Hc Hnd Hnew.
  { exists m. split; [done|]. split; [done|]. split; [|done].
    intros a Ha. by apply not_elem_of_nil in Ha. }
  rewrite fmap_cons in Hnd, Hnew. simpl in Hnd, Hnew.
  apply NoDup_cons in Hnd as [Ha Hnd].
  destruct (Hnew a) as (ag & Hag & Hpos); [set_solver|].
  pose proof Hc as (Ht & Hw & Hh & _).
  pose proof (place_agent_run a p m ag Ht Hag Hpos) as Hrun.
  set (q := (p.1 mod width (grid m), p.2 mod height (grid m))) in Hrun.
  assert (a < length (agents m))%nat as Hlt by by eapply lookup_lt_Some.
  destruct (IH (relocate a ag q m)) as (m' & Hfor & Hc' & Hin & Hout).
  - simpl. apply consistent_relocate; [done|done|by apply in_bounds_wrap].
  - done.
  - intros b Hb. simpl. rewrite list_lookup_insert_ne by set_solver.
    apply Hnew. set_solver.
  - exists m'. simpl. rewrite (bind_run _ _ _ _ _ Hrun).
    split; [done|]. split; [done|]. split.
    + intros b [->|Hb]%elem_of_cons; [|by apply Hin].
      rewrite (Hout a Ha). simpl. rewrite list_lookup_insert_eq by done.
      eexists. split; [done|]. simpl. eauto.
    + intros b Hb. rewrite ?fmap_cons in Hb. simpl in Hb.
      rewrite Hout by set_solver. simpl.
      apply list_lookup_insert_ne. set_solver.
Qed.

(** Construction returns for a non-empty population on a grid with cells,
    and leaves every agent on the grid. *)
Lemma init_returns n w h seed :
  (0 < n)%nat → 0 < w → 0 < h →
  ∃ m, MoneyModel_init R G n w h seed = inr m ∧ wf m.
Proof.
  intros Hn Hw Hh. unfold MoneyModel_init.
  destruct (decide _) as [|_]; [lia|].
  pose proof (integers_length G 0 w n (rng (MoneyModel_blank R G n w h seed)))
    as Hx.
  destruct (integers G 0 w n _) as [x g1].
  pose proof (integers_length G 0 h n g1) as Hy.
  destruct (integers G 0 h n g1) as [y g2]. simpl in Hx, Hy.
  set (m0 := set_rng g2 (MoneyModel_blank R G n w h seed)).
  assert ((zip (seq 0 n) (zip x y)).*1 = seq 0 n) as Hfst.
  { apply fst_zip. rewrite length_seq, length_zip. lia. }
  destruct (place_all (zip (seq 0 n) (zip x y)) m0)
    as (m1 & Hfor & Hc & Hin & _).
  - by apply consistent_blank.
  - rewrite Hfst. apply NoDup_seq.
  - intros a Ha. rewrite Hfst in Ha. apply elem_of_seq in Ha.
    exists MoneyAgent_new. split; [|done]. simpl.
    apply lookup_replicate. split; [done|lia].
  - rewrite (bind_run _ _ _ _ _ Hfor).
    assert (keeps (R:=R) (G:=G) num_agents
              (for_each (zip (seq 0 n) (zip x y))
                 (λ aij, place_agent aij.1 aij.2))) as Hk1
      by (apply keeps_for_each; intros; frame).
    assert (keeps (R:=R) (G:=G) (λ m, length (agents m))
              (for_each (zip (seq 0 n) (zip x y))
                 (λ aij, place_agent aij.1 aij.2))) as Hk2
      by (apply keeps_for_each; intros; frame).
    assert (keeps (R:=R) (G:=G) wealths
              (for_each (zip (seq 0 n) (zip x y))
                 (λ aij, place_agent aij.1 aij.2))) as Hk3
      by (apply keeps_for_each; intros; apply keeps_place_agent).
    specialize (Hk1 m0). specialize (Hk2 m0). specialize (Hk3 m0).
    rewrite Hfor in Hk1, Hk2, Hk3. simpl in Hk1, Hk2, Hk3.
    rewrite length_replicate in Hk2.
    assert (wealths m1 = replicate n 1) as Hw1.
    { rewrite Hk3. unfold wealths. simpl. by rewrite fmap_replicate. }
    destruct (collect_returns m1
      (gini_formula (sorted (wealths m1)))) as [m Hcol].
    { apply compute_gini_defined; [congruence|].
      rewrite total_wealth_wealths, Hw1, sum_replicate, Hk1. lia. }
    rewrite Hcol. exists m. split; [done|].
    pose proof (collect_frame m1) as [= Ha _ Hg]. rewrite Hcol in Ha, Hg.
    simpl in Ha, Hg. split; rewrite Ha, ?Hg; [done|].
    apply Forall_lookup. intros a ag Hag.
    destruct (Hin a) as (ag' & Hag' & Hpos).
    { rewrite Hfst. apply elem_of_seq. apply lookup_lt_Some in Hag. lia. }
    congruence.
Qed.

Lemma init_wf n w h seed m :
  MoneyModel_init R G n w h seed = inr m → wf m.
Proof.
  intros Hinit.
  assert (0 < w ∧ 0 < h) as [Hw Hh].
  { unfold MoneyModel_init in Hinit. destruct (decide _); [done|lia]. }
  destruct n as [|n]; [by apply init_no_agents in Hinit|].
  destruct (init_returns (S n) w h seed) as (m' & Hm' & Hwf); try done; [lia|].
  congruence.
Qed.

Lemma reachable_wf m : reachable m → wf m.
Proof.
  induction 1 as [n w h seed m Hinit|m _ IH].
  - by eapply init_wf.
  - by apply preserves_wf_step.
Qed.

(** On the grid of one cell the first agent of a tick raises. *)
Lemma step_single_cell m :
  reachable m → width (grid m) = 1 → height (grid m) = 1 →
  MoneyModel_step m =
    (inl IndexError,
     set_random (shuffle R (seq 0 (length (agents m))) (random m)).2 m).
Proof.
  intros Hm Hw Hh. pose proof (reachable_wf m Hm) as [Hc Hpl].
  destruct (reachable_census m Hm) as (Hn & Hpos & _).
  rewrite step_unfold.
  set (m0 := set_random _ m).
  pose proof (activation_order_valid m) as Hvalid.
  assert (length (activation_order m) = length (agents m)) as Hlen.
  { unfold activation_order. rewrite shuffle_Permutation. apply length_seq. }
  destruct (activation_order m) as [|a order]; [simpl in Hlen; lia|].
  inversion Hvalid as [|?? Ha _]; subst.
  destruct (lookup_lt_is_Some_2 _ _ Ha) as [ag Hag].
  destruct (Forall_lookup_1 _ _ _ _ Hpl Hag) as [p Hp].
  destruct Hc as (Ht & _ & _ & Hin & _).
  destruct (Hin a ag p Hag Hp) as [Hb _].
  assert (MoneyAgent_move a m0 = (inl IndexError, m0)) as Hmove.
  { apply (move_empty a m0 ag p); [done|done|].
    by apply neighborhood_single_cell. }
  apply bind_fail. simpl. apply bind_fail.
  unfold MoneyAgent_step. by apply bind_fail.
Qed.

End Construction.

(** ** More on the inequality coefficient *)

Lemma weighted_replicate k j c :
  2 * weighted k (replicate j c) = c * Z.of_nat j * (2 * k - Z.of_nat j + 1).
Proof.
  revert k. induction j as [|j IH]; intros k.
  { change (weighted k (replicate 0 c)) with 0. lia. }
  simpl replicate. rewrite weighted_cons.
  specialize (IH (k - 1)). nia.
Qed.

Lemma sorted_replicate n c : sorted (replicate n c) = replicate n c.
Proof.
  apply sorted_unique; [done|].
  induction n as [|n IH]; simpl; [constructor|].
  constructor; [done|]. destruct n; simpl; constructor. lia.
Qed.

Lemma sorted_Permutation l k : l ≡ₚ k → sorted l = sorted k.
Proof.
  intros H. apply sorted_unique.
  - unfold sorted. by rewrite merge_sort_Permutation.
  - apply (Sorted_merge_sort Z.le).
Qed.

Section GiniMore.
Context {R G : Generator}.
Implicit Types m : Model R G.

Lemma compute_gini_weighted m :
  num_agents m = length (agents m) →
  Z.of_nat (num_agents m) * total_wealth m ≠ 0 →
  compute_gini m =
    inr (1 + 1 / inject_Z (Z.of_nat (num_agents m))
         - 2 * (inject_Z (weighted (Z.of_nat (num_agents m)) (sorted (wealths m)))
                / inject_Z (Z.of_nat (num_agents m) * total_wealth m)))%Q.
Proof.
  intros HN Hden. unfold compute_gini. cbv zeta. fold (wealths m).
  rewrite sum_sorted, <- total_wealth_wealths.
  destruct (decide _) as [|_]; [done|].
  destruct (decide _) as [HN0|_]; [|done].
  rewrite HN0 in Hden. lia.
Qed.

Lemma sorted_length m : length (sorted (wealths m)) = length (agents m).
Proof.
  transitivity (length (wealths m)).
  - apply Permutation_length, merge_sort_Permutation.
  - unfold wealths. by rewrite length_fmap.
Qed.

Lemma positive_total_population m :
  0 < total_wealth m → (0 < length (agents m))%nat.
Proof.
  intros H. destruct (agents m) eqn:E; [|simpl; lia].
  unfold total_wealth in H. rewrite E in H. done.
Qed.

Lemma compute_gini_bounded m :
  num_agents m = length (agents m) →
  Forall (λ w, 0 ≤ w) (wealths m) → 0 < total_wealth m →
  ∃ g, compute_gini m = inr g ∧
       (0 <= g)%Q ∧ (g <= 1 - 1 / inject_Z (Z.of_nat (num_agents m)))%Q ∧
       (g < 1)%Q.
Proof.
  intros HN Hnn Hsum. pose proof (positive_total_population m Hsum) as Hpop.
  rewrite compute_gini_weighted by (try done; nia).
  eexists. split; [reflexivity|].
  apply gini_value_bounds; try lia.
  - rewrite total_wealth_wealths, <- (sum_sorted (wealths m)).
    apply weighted_lower.
    + unfold sorted. by rewrite merge_sort_Permutation.
    + rewrite sorted_length. lia.
  - rewrite total_wealth_wealths, <- (sum_sorted (wealths m)), HN,
      <- sorted_length.
    apply weighted_upper, (Sorted_merge_sort Z.le).
Qed.

End GiniMore.

(** ** What a tick does to one agent *)

Lemma debit_credit_lower b other (l : list Agent) a x x' :
  l !! a = Some x → debit b (credit other l) !! a = Some x' →
  wealth x - (if decide (a = b) then 1 else 0) ≤ wealth x'.
Proof.
  intros Hx Hx'.
  destruct (decide (other = b)) as [->|Hne].
  { rewrite debit_credit_self in Hx'. simplify_eq. case_decide; lia. }
  assert (∀ y, credit other l !! a = Some y → wealth x ≤ wealth y) as Hcr.
  { intros y. unfold credit. destruct (l !! other) as [o|] eqn:Ho.
    - destruct (decide (a = other)) as [->|].
      + rewrite list_lookup_insert_eq by by eapply lookup_lt_Some.
        intros [= <-]. simplify_eq/=. lia.
      + rewrite list_lookup_insert_ne by done. intros. simplify_eq. lia.
    - intros. simplify_eq. lia. }
  unfold debit in Hx'. destruct (credit other l !! b) as [s|] eqn:Hs.
  - destruct (decide (a = b)) as [->|].
    + rewrite list_lookup_insert_eq in Hx' by by eapply lookup_lt_Some.
      simplify_eq/=. specialize (Hcr s Hs). lia.
    + rewrite list_lookup_insert_ne in Hx' by done.
      specialize (Hcr x' Hx'). lia.
  - specialize (Hcr x' Hx'). case_decide; lia.
Qed.

Section Ticks.
Context {R G : Generator}.
Implicit Types (m : Model R G) (a b self other : AgentId).

#[local] Hint Resolve keeps_pos_set_wealth : frame.

Lemma give_money_agents_cases self m :
  agents (MoneyAgent_give_money self m).2 = agents m ∨
  ∃ other, agents (MoneyAgent_give_money self m).2
           = debit self (credit other (agents m)).
Proof.
  destruct (self_pos self m) as [[e|p] m'] eqn:E;
    destruct (self_pos_inv _ _ _ _ E) as [-> H].
  { left. unfold MoneyAgent_give_money. by rewrite (bind_fail _ _ _ _ _ E). }
  destruct (H p eq_refl) as (ag & Hs & Hp).
  rewrite (give_money_run _ _ _ _ Hs Hp).
  destruct (decide _); [|by left].
  destruct (random_choice _ m) as [[e|other] m1] eqn:E2;
    destruct (random_choice_inv _ _ _ _ E2) as (Hag & _ & _).
  { by left. }
  destruct (agents m !! other); [|by left]. right. by exists other.
Qed.

Lemma agent_step_split self :
  MoneyAgent_step (R:=R) (G:=G) self
  = bind (MoneyAgent_move self) (λ _, after_move self).
Proof. reflexivity. Qed.

Lemma after_move_agents_cases self m :
  agents (after_move self m).2 = agents m ∨
  ∃ other, agents (after_move self m).2 = debit self (credit other (agents m)).
Proof.
  unfold after_move, bind, agent.
  destruct (agents m !! self) as [s|]; [|by left].
  destruct (decide _); [apply give_money_agents_cases|by left].
Qed.

Lemma after_move_frame self :
  keeps (R:=R) (G:=G) (λ m, pos <$> agents m) (after_move self).
Proof. unfold after_move. frame. Qed.

(** An agent's step costs that agent at most one unit and costs nobody
    else anything. *)
Lemma agent_step_lower b m a x x' :
  agents m !! a = Some x → agents (MoneyAgent_step b m).2 !! a = Some x' →
  wealth x - (if decide (a = b) then 1 else 0) ≤ wealth x'.
Proof.
  intros Hx Hx'. rewrite agent_step_split in Hx'. unfold bind in Hx'.
  pose proof (keeps_MoneyAgent_move b m) as Hmove.
  destruct (MoneyAgent_move b m) as [[e|[]] m1]; simpl in Hmove, Hx'.
  - assert (wealth x' = wealth x); [|case_decide; lia].
    assert (wealths m1 !! a = wealths m !! a) as H by by rewrite Hmove.
    unfold wealths in H. rewrite !list_lookup_fmap, Hx, Hx' in H.
    by injection H.
  - assert (is_Some (agents m1 !! a)) as [x1 Hx1].
    { apply lookup_lt_is_Some. apply lookup_lt_Some in Hx.
      assert (length (wealths m1) = length (wealths m)) as H by by rewrite Hmove.
      unfold wealths in H. rewrite !length_fmap in H. lia. }
    assert (wealth x1 = wealth x) as <-.
    { assert (wealths m1 !! a = wealths m !! a) as H by by rewrite Hmove.
      unfold wealths in H. rewrite !list_lookup_fmap, Hx, Hx1 in H.
      by injection H. }
    destruct (after_move_agents_cases b m1) as [Heq|[other Heq]];
      rewrite Heq in Hx'.
    + simplify_eq. case_decide; lia.
    + by eapply debit_credit_lower.
Qed.

Lemma for_each_step_lower order m a x x' :
  NoDup order →
  agents m !! a = Some x →
  agents (for_each order MoneyAgent_step m).2 !! a = Some x' →
  wealth x - (if decide (a ∈ order) then 1 else 0) ≤ wealth x'.
Proof.
  revert m x. induction order as [|b order IH]; intros m x Hnd Hx Hx'.
  { simpl in Hx'. simplify_eq. case_decide; lia. }
  apply NoDup_cons in Hnd as [Hb Hnd].
  assert (keeps (R:=R) (G:=G) (λ m, length (agents m)) (MoneyAgent_step b))
    as Hlen by frame.
  specialize (Hlen m).
  assert (is_Some (agents (MoneyAgent_step b m).2 !! a)) as [x1 Hx1].
  { apply lookup_lt_is_Some. rewrite Hlen. by eapply lookup_lt_Some. }
  pose proof (agent_step_lower b m a x x1 Hx Hx1) as H1.
  simpl in Hx'. unfold bind in Hx'.
  destruct (MoneyAgent_step b m) as [[e|[]] m1]; simpl in *.
  - simplify_eq. repeat case_decide; set_solver by lia.
  - pose proof (IH m1 x1 Hnd Hx1 Hx') as H2.
    repeat case_decide; try lia; set_solver.
Qed.

(** A step that returns has moved its agent to another cell and has moved
    nobody else. *)
Lemma agent_step_pos b m m1 :
  torus (grid m) = true → 0 < width (grid m) → 0 < height (grid m) →
  MoneyAgent_step b m = (inr (), m1) →
  ∃ p q, (pos <$> agents m) !! b = Some (Some p) ∧ q ≠ p ∧
         pos <$> agents m1 = <[b := Some q]> (pos <$> agents m).
Proof.
  intros Ht Hw Hh. rewrite agent_step_split. unfold bind.
  destruct (MoneyAgent_move b m) as [[e|[]] m0] eqn:E; [done|].
  destruct (MoneyAgent_move_cases _ _ _ _ Ht Hw Hh E)
    as [(e & ? & _)|(ag & p & q & g' & _ & Hs & Hp & _ & Hne & _ & ->)];
    [done|].
  intros Hrest. exists p, q.
  split; [by rewrite list_lookup_fmap, Hs; simpl; rewrite Hp|].
  split; [done|].
  pose proof (after_move_frame b (relocate b ag q (set_random g' m))) as Hk.
  rewrite Hrest in Hk. simpl in Hk. rewrite Hk.
  by rewrite list_fmap_insert.
Qed.

Lemma for_each_step_pos order m m' :
  torus (grid m) = true → 0 < width (grid m) → 0 < height (grid m) →
  NoDup order →
  for_each order MoneyAgent_step m = (inr (), m') →
  (∀ a, a ∈ order →
     (pos <$> agents m') !! a ≠ (pos <$> agents m) !! a) ∧
  (∀ a, a ∉ order →
     (pos <$> agents m') !! a = (pos <$> agents m) !! a).
Proof.
  revert m. induction order as [|b order IH]; intros m Ht Hw Hh Hnd Hfor.
  { simpl in Hfor. injection Hfor as <-. split; [|done].
    intros a Ha. by apply not_elem_of_nil in Ha. }
  apply NoDup_cons in Hnd as [Hb Hnd].
  simpl in Hfor. unfold bind in Hfor.
  destruct (MoneyAgent_step b m) as [[e|[]] m1] eqn:E; [done|].
  destruct (agent_step_pos b m m1 Ht Hw Hh E) as (p & q & Hp & Hne & Hpos).
  assert (keeps (R:=R) (G:=G) (λ m, shape (grid m)) (MoneyAgent_step b))
    as Hsh by frame.
  specialize (Hsh m). rewrite E in Hsh. injection Hsh as Hw1 Hh1 Ht1.
  destruct (IH m1) as [Hin Hout]; try done; try congruence.
  assert (b < length (pos <$> agents m))%nat as Hlt by by eapply lookup_lt_Some.
  split.
  - intros a [->|Ha]%elem_of_cons.
    + rewrite (Hout b Hb), Hpos, list_lookup_insert_eq, Hp by done. congruence.
    + specialize (Hin a Ha). rewrite Hpos in Hin.
      rewrite list_lookup_insert_ne in Hin by set_solver. done.
  - intros a Ha. rewrite (Hout a) by set_solver.
    rewrite Hpos. apply list_lookup_insert_ne. set_solver.
Qed.

Lemma activation_order_NoDup m : NoDup (activation_order m).
Proof.
  unfold activation_order. rewrite shuffle_Permutation. apply NoDup_seq.
Qed.

Lemma elem_of_activation_order m a :
  a ∈ activation_order m ↔ (a < length (agents m))%nat.
Proof.
  unfold activation_order. rewrite shuffle_Permutation, elem_of_seq. lia.
Qed.

(** What a tick leaves in the collector. *)
Lemma step_series m :
  datacollector (after_step m) = datacollector m ∨
  ∃ v, compute_gini (after_step m) = inr v ∧
       model_vars (datacollector (after_step m))
         = model_vars (datacollector m) ++ [v] ∧
       agent_vars (datacollector (after_step m))
         = agent_vars (datacollector m)
           ++ [imap (λ i ag, (i, wealth ag)) (agents (after_step m))].
Proof.
  unfold after_step. rewrite step_unfold.
  set (m0 := set_random _ m).
  pose proof (keeps_for_each datacollector (activation_order m) _
                agent_step_datacollector m0) as Hdc.
  unfold bind.
  destruct (for_each (activation_order m) MoneyAgent_step m0)
    as [[e|[]] m1]; simpl in *; [by left|].
  unfold collect, bind, get, lift, modify.
  destruct (compute_gini m1) as [e|v] eqn:Hv; simpl; [by left|].
  right. exists v. rewrite Hdc. done.
Qed.

Lemma step_returns_series m m' :
  MoneyModel_step m = (inr (), m') →
  length (model_vars (datacollector m'))
    = S (length (model_vars (datacollector m))) ∧
  length (agent_vars (datacollector m'))
    = S (length (agent_vars (datacollector m))).
Proof.
  rewrite step_unfold. set (m0 := set_random _ m).
  pose proof (keeps_for_each datacollector (activation_order m) _
                agent_step_datacollector m0) as Hdc.
  unfold bind.
  destruct (for_each (activation_order m) MoneyAgent_step m0)
    as [[e|[]] m1]; simpl in *; [done|].
  intros (v & _ & ->)%collect_inv. simpl.
  rewrite !length_app, Hdc. simpl. lia.
Qed.

Lemma init_series n w h seed m :
  MoneyModel_init R G n w h seed = inr m →
  ∃ v, compute_gini m = inr v ∧
       model_vars (datacollector m) = [v] ∧
       agent_vars (datacollector m)
         = [imap (λ i ag, (i, wealth ag)) (agents m)].
Proof.
  unfold MoneyModel_init. destruct (decide _); [done|].
  destruct (integers G 0 w n _) as [x g1].
  destruct (integers G 0 h n g1) as [y g2].
  set (m0 := set_rng g2 _).
  assert (keeps (R:=R) (G:=G) datacollector
            (for_each (zip (seq 0 n) (zip x y))
               (λ aij, place_agent aij.1 aij.2))) as Hdc
    by (apply keeps_for_each; intros; frame).
  specialize (Hdc m0). unfold bind.
  destruct (for_each _ _ m0) as [[e|[]] m1]; simpl in Hdc; [done|].
  destruct (collect m1) as [[e|[]] m2] eqn:Hc; [done|].
  intros [= <-]. destruct (collect_inv _ _ Hc) as (v & Hv & ->).
  exists v. simpl. rewrite Hdc. done.
Qed.

End Ticks.

(** ** Properties of the notebook's functions *)

Lemma fmap_constant {A B} (f : A → B) (l : list A) (c : B) :
  (∀ x, x ∈ l → f x = c) → f <$> l = replicate (length l) c.
Proof.
  induction l as [|x l IH]; intros H; [done|].
  rewrite fmap_cons, (H x), IH by set_solver. done.
Qed.

Lemma elem_le_sum (l : list Z) (x : Z) :
  Forall (λ w, 0 ≤ w) l → x ∈ l → x ≤ sum l.
Proof.
  induction 1 as [|y l Hy Hl IH]; [by intros ?%not_elem_of_nil|].
  assert (0 ≤ sum l).
  { clear IH. induction Hl; [done|]. rewrite sum_cons. lia. }
  rewrite sum_cons. intros [->|Hx]%elem_of_cons; [lia|]. specialize (IH Hx). lia.
Qed.

Section Extras.
Context {R G : Generator}.
Implicit Types (m : Model R G) (a self : AgentId).

Lemma reachable_after_steps k m : reachable m → reachable (after_steps k m).
Proof.
  intros Hm. induction k as [|k IH]; [done|].
  unfold after_steps in *. simpl. by apply reach_step.
Qed.

Lemma reachable_gini_bounds m v :
  reachable m → compute_gini m = inr v → (0 <= v)%Q ∧ (v < 1)%Q.
Proof.
  intros Hm Hv. destruct (reachable_census m Hm) as (HN & Hpos & Htot).
  destruct (compute_gini_bounded m) as (g & Hg & H0 & _ & H1).
  - done.
  - by apply reachable_nonneg.
  - lia.
  - assert (g = v) as <- by congruence. done.
Qed.

Lemma compute_gini_equal m (c : Z) :
  num_agents m = length (agents m) → (0 < num_agents m)%nat → 0 < c →
  wealths m = replicate (num_agents m) c →
  ∃ g, compute_gini m = inr g ∧ (g == 0)%Q.
Proof.
  intros HN Hpos Hc Hw.
  assert (total_wealth m = Z.of_nat (num_agents m) * c) as Htot.
  { by rewrite total_wealth_wealths, Hw, sum_replicate. }
  rewrite compute_gini_weighted by (try done; nia).
  eexists. split; [reflexivity|].
  apply gini_value_zero; [lia|nia|].
  rewrite Hw, sorted_replicate, weighted_replicate, Htot. lia.
Qed.

Lemma bind_collect_agents {A} (c : M R G A) m :
  agents (bind c (λ _, collect) m).2 = agents (c m).2.
Proof.
  unfold bind. destruct (c m) as [[e|x] m1]; [done|]. simpl.
  assert (keeps (R:=R) (G:=G) agents collect) as H by frame. apply H.
Qed.

End Extras.

(** X2 ([compute_gini]).  When all N > 0 agents have the same wealth c > 0,
    [compute_gini] returns a value equal to 0. *)
Theorem gini_equal_wealth_is_zero {R G} (m : Model R G) (c : Z) :
  num_agents m = length (agents m) → (0 < num_agents m)%nat → 0 < c →
  (∀ ag, ag ∈ agents m → wealth ag = c) →
  ∃ g, compute_gini m = inr g ∧ (g == 0)%Q.
Proof.
  intros HN Hpos Hc Hall. apply (compute_gini_equal m c); try done.
  rewrite HN. by apply fmap_constant.
Qed.

Lemma gini_equal_wealth_is_zero_witness :
  ∃ g, compute_gini crowded = inr g ∧ (g == 0)%Q.
Proof.
  apply (gini_equal_wealth_is_zero crowded 1).
  - reflexivity.
  - simpl. lia.
  - lia.
  - intros ag Hag. vm_compute in Hag.
    repeat (apply elem_of_cons in Hag as [->|Hag]; [reflexivity|]).
    by apply not_elem_of_nil in Hag.
Defined.

(** X4 ([compute_gini]).  The result depends on the wealth values and not
    on the order of the agents: two models with the same [num_agents]
    whose wealth lists are permutations of each other get the same result,
    value or error. *)
Theorem gini_order_independent {R G} (m1 m2 : Model R G) :
  num_agents m1 = num_agents m2 → wealths m1 ≡ₚ wealths m2 →
  compute_gini m1 = compute_gini m2.
Proof.
  intros HN Hperm. unfold compute_gini. cbv zeta.
  fold (wealths m1) (wealths m2).
  by rewrite HN, (sorted_Permutation _ _ Hperm).
Qed.

Lemma gini_order_independent_witness :
  compute_gini uneven = compute_gini (set_agents (reverse (agents uneven)) uneven).
Proof.
  apply gini_order_independent.
  - reflexivity.
  - unfold wealths. cbn [agents set_agents]. rewrite fmap_reverse.
    symmetry. apply reverse_Permutation.
Defined.

(** X5 (the "Gini" series).  In every reachable state, every value that has
    been collected in the series is at least 0 and less than 1. *)
Theorem recorded_gini_in_unit_interval {R G} (m : Model R G) :
  reachable m →
  ∀ g, g ∈ model_vars (datacollector m) → (0 <= g)%Q ∧ (g < 1)%Q.
Proof.
  induction 1 as [n w h seed m Hinit|m Hm IH]; intros g Hg.
  - destruct (init_series _ _ _ _ _ Hinit) as (v & Hv & Hseries & _).
    rewrite Hseries in Hg. apply list_elem_of_singleton in Hg as ->.
    eapply reachable_gini_bounds; [|done]. by eapply reach_init.
  - destruct (step_series m) as [Heq|(v & Hv & Hseries & _)].
    + rewrite Heq in Hg. by apply IH.
    + rewrite Hseries in Hg. apply elem_of_app in Hg as [Hg|Hg]; [by apply IH|].
      apply list_elem_of_singleton in Hg as ->.
      eapply reachable_gini_bounds; [|done]. by apply reach_step.
Qed.

Lemma recorded_gini_in_unit_interval_witness :
  reachable (after_step crowded) ∧
  ∀ g, g ∈ model_vars (datacollector (after_step crowded)) →
       (0 <= g)%Q ∧ (g < 1)%Q.
Proof.
  assert (reachable (after_step crowded)) as H.
  { apply reach_step, (reach_init tape tape 2 10 10 0).
    vm_compute. reflexivity. }
  split; [exact H | exact (recorded_gini_in_unit_interval _ H)].
Defined.

(** X6 (the values of the Histogram).  In every reachable state the list
    [wealth_vals] has [num_agents] entries, sums to [num_agents], and each
    entry lies between 0 and [num_agents]. *)
Theorem wealth_bounded_by_population {R G} (m : Model R G) :
  reachable m →
  length (Histogram_wealth_vals m) = num_agents m ∧
  sum (Histogram_wealth_vals m) = Z.of_nat (num_agents m) ∧
  ∀ v, v ∈ Histogram_wealth_vals m → 0 ≤ v ≤ Z.of_nat (num_agents m).
Proof.
  intros Hm. destruct (reachable_census m Hm) as (HN & _ & Htot).
  pose proof (reachable_nonneg m Hm) as Hnn.
  unfold Histogram_wealth_vals. fold (wealths m).
  split; [unfold wealths; by rewrite length_fmap|].
  split; [by rewrite <- total_wealth_wealths|].
  intros v Hv. split.
  - by eapply (proj1 (Forall_forall _ _) Hnn).
  - rewrite <- Htot, total_wealth_wealths. by apply elem_le_sum.
Qed.

Lemma wealth_bounded_by_population_witness :
  reachable (after_step crowded) ∧
  ∀ v, v ∈ Histogram_wealth_vals (after_step crowded) → 0 ≤ v ≤ 2.
Proof.
  assert (reachable (after_step crowded)) as H.
  { apply reach_step, (reach_init tape tape 2 10 10 0).
    vm_compute. reflexivity. }
  split; [exact H | exact (proj2 (proj2 (wealth_bounded_by_population _ H)))].
Defined.

(** X7 ([agent_portrayal]).  In every reachable state an agent is drawn red
    with size 10 exactly when its wealth is 0, and blue with size 50
    exactly when its wealth is at least 1; at least one agent is drawn
    blue. *)
Theorem portrayal_of_reachable {R G} (m : Model R G) :
  reachable m →
  (∀ ag, ag ∈ agents m →
     (agent_portrayal ag = {| Portrayal.size := 10; Portrayal.color := "tab:red" |}
        ↔ wealth ag = 0) ∧
     (agent_portrayal ag = {| Portrayal.size := 50; Portrayal.color := "tab:blue" |}
        ↔ 1 ≤ wealth ag)) ∧
  ∃ ag, ag ∈ agents m ∧
        agent_portrayal ag = {| Portrayal.size := 50; Portrayal.color := "tab:blue" |}.
Proof.
  intros Hm. split.
  - intros ag Hag.
    assert (0 ≤ wealth ag).
    { pose proof (reachable_nonneg m Hm) as Hnn.
      unfold nonneg, wealths in Hnn. rewrite Forall_fmap, Forall_forall in Hnn.
      by apply Hnn. }
    unfold agent_portrayal. destruct (decide _); split; split; intros;
      simplify_eq; try lia; done.
  - destruct (reachable_census m Hm) as (_ & Hpos & Htot).
    destruct (decide (Exists (λ ag, 0 < wealth ag) (agents m))) as [Hex|Hno].
    + apply Exists_exists in Hex as (ag & Hag & Hw). exists ag.
      split; [done|]. unfold agent_portrayal. by destruct (decide _).
    + apply not_Exists_Forall in Hno; [|apply _].
      assert (total_wealth m ≤ 0); [|lia].
      unfold total_wealth. clear -Hno.
      induction Hno as [|ag l Hag _ IH]; [done|].
      rewrite fmap_cons, sum_cons. simpl in Hag. lia.
Qed.

Lemma portrayal_of_reachable_witness :
  ∃ ag, ag ∈ agents crowded ∧
        agent_portrayal ag = {| Portrayal.size := 50; Portrayal.color := "tab:blue" |}.
Proof.
  assert (reachable crowded) as H.
  { apply (reach_init tape tape 2 10 10 0). vm_compute. reflexivity. }
  exact (proj2 (portrayal_of_reachable crowded H)).
Defined.

(** X8 ([MoneyModel.__init__]).  On a grid with positive width and height
    the constructor raises ZeroDivisionError for n = 0 (the first capture
    divides by zero) and returns for every n > 0, with [num_agents] = n, n
    agents and a toroidal grid of the given size. *)
Theorem construction_returns {R G} (n : nat) (w h seed : Z) :
  0 < w → 0 < h →
  (n = 0%nat → MoneyModel_init R G n w h seed = inl ZeroDivisionError) ∧
  ((0 < n)%nat →
     ∃ m, MoneyModel_init R G n w h seed = inr m ∧
          num_agents m = n ∧ length (agents m) = n ∧
          shape (grid m) = (w, h, true)).
Proof.
  intros Hw Hh. split.
  - intros ->. unfold MoneyModel_init. destruct (decide _); [lia|]. reflexivity.
  - intros Hn. destruct (init_returns (R:=R) (G:=G) n w h seed) as (m & Hm & _);
      try done.
    exists m. split; [done|].
    destruct (init_population _ _ _ _ _ Hm). by rewrite (init_shape _ _ _ _ _ Hm).
Qed.

Lemma construction_returns_witness :
  MoneyModel_init tape tape 0 10 10 0 = inl ZeroDivisionError ∧
  ∃ m, MoneyModel_init tape tape 50 10 10 42 = inr m ∧
       num_agents m = 50%nat ∧ length (agents m) = 50%nat ∧
       shape (grid m) = (10, 10, true).
Proof.
  split.
  - apply (construction_returns (R:=tape) (G:=tape) 0 10 10 0); [lia|lia|done].
  - apply (construction_returns (R:=tape) (G:=tape) 50 10 10 42); lia.
Defined.

(** X9 ([MoneyModel.__init__]).  A constructed model has collected exactly
    one "Gini" value, equal to 0, and one "Wealth" table that gives every
    agent the wealth 1. *)
Theorem first_capture {R G} n w h seed (m : Model R G) :
  MoneyModel_init R G n w h seed = inr m →
  ∃ g, model_vars (datacollector m) = [g] ∧ (g == 0)%Q ∧
       agent_vars (datacollector m) = [(λ a, (a, 1)) <$> seq 0 n].
Proof.
  intros Hinit.
  destruct (init_series _ _ _ _ _ Hinit) as (v & Hv & Hmv & Hav).
  destruct (init_population _ _ _ _ _ Hinit) as [HN Hlen].
  pose proof (init_wealths _ _ _ _ _ Hinit) as Hw.
  exists v. split; [done|]. split.
  - destruct (compute_gini_equal m 1) as (g & Hg & H0); try done.
    + congruence.
    + destruct n; [by apply init_no_agents in Hinit|lia].
    + by rewrite Hw, HN.
    + congruence.
  - rewrite Hav. f_equal. apply list_eq. intros i.
    rewrite list_lookup_imap, list_lookup_fmap.
    destruct (agents m !! i) as [ag|] eqn:Hag; simpl.
    + assert (wealths m !! i = Some (wealth ag)) as Hwi
        by by unfold wealths; rewrite list_lookup_fmap, Hag.
      rewrite Hw in Hwi. apply lookup_replicate in Hwi as [-> Hi].
      by rewrite lookup_seq_lt by lia.
    + apply lookup_ge_None in Hag. by rewrite lookup_seq_ge by lia.
Qed.

Lemma first_capture_witness :
  ∃ g, model_vars (datacollector crowded) = [g] ∧ (g == 0)%Q ∧
       agent_vars (datacollector crowded) = [[(0%nat, 1); (1%nat, 1)]].
Proof.
  apply (first_capture (R:=tape) (G:=tape) 2 10 10 0 crowded).
  vm_compute. reflexivity.
Defined.

(** X10 (agents and grid).  In every reachable state every agent has a
    position inside the grid and is listed in the cell of that position; a
    cell lists only agents whose position it is, and lists none twice. *)
Theorem index_consistency {R G} (m : Model R G) :
  reachable m →
  (∀ a ag, agents m !! a = Some ag →
     ∃ p, pos ag = Some p ∧ in_bounds (grid m) p = true ∧
          a ∈ contents (grid m) p) ∧
  (∀ a p, a ∈ contents (grid m) p →
     ∃ ag, agents m !! a = Some ag ∧ pos ag = Some p) ∧
  (∀ p, NoDup (contents (grid m) p)).
Proof.
  intros [(_ & _ & _ & Hin & Hli & Hnd) Hpl]%reachable_wf.
  split; [|done]. intros a ag Hag.
  destruct (Forall_lookup_1 _ _ _ _ Hpl Hag) as [p Hp].
  exists p. split; [done|]. by eapply Hin.
Qed.

Lemma index_consistency_witness :
  reachable (after_step crowded) ∧
  ∀ a p, a ∈ contents (grid (after_step crowded)) p →
    ∃ ag, agents (after_step crowded) !! a = Some ag ∧ pos ag = Some p.
Proof.
  assert (reachable (after_step crowded)) as H.
  { apply reach_step, (reach_init tape tape 2 10 10 0).
    vm_compute. reflexivity. }
  split; [exact H | exact (proj1 (proj2 (index_consistency _ H)))].
Defined.

(** X11 ([MoneyModel.step]).  In a reachable state of a model whose grid
    has more than one column or more than one row, a call to [step]
    returns: no move, transfer or capture raises. *)
Theorem step_returns_on_larger_grid {R G} (m : Model R G) :
  reachable m → 2 ≤ width (grid m) ∨ 2 ≤ height (grid m) →
  ∃ m', MoneyModel_step m = (inr (), m').
Proof. intros Hm Hbig. apply step_returns; [done|by apply reachable_wf|done]. Qed.

Lemma step_returns_on_larger_grid_witness :
  ∃ m', MoneyModel_step (after_step crowded) = (inr (), m').
Proof.
  apply step_returns_on_larger_grid.
  - apply reach_step, (reach_init tape tape 2 10 10 0). vm_compute. reflexivity.
  - left. vm_compute. discriminate.
Defined.

(** X12 ([MoneyModel.step]).  In a reachable state of a model on the grid
    of one cell, a call to [step] raises IndexError in the move of the
    first agent and leaves the agents, the grid and the collected series
    as they were. *)
Theorem step_raises_on_single_cell {R G} (m : Model R G) :
  reachable m → width (grid m) = 1 → height (grid m) = 1 →
  ∃ m', MoneyModel_step m = (inl IndexError, m') ∧
        agents m' = agents m ∧ grid m' = grid m ∧
        datacollector m' = datacollector m.
Proof.
  intros Hm Hw Hh. rewrite (step_single_cell m Hm Hw Hh). by eexists.
Qed.

Lemma step_raises_on_single_cell_witness :
  ∃ m', MoneyModel_step lonely = (inl IndexError, m') ∧
        agents m' = agents lonely ∧ grid m' = grid lonely ∧
        datacollector m' = datacollector lonely.
Proof.
  apply step_raises_on_single_cell.
  - apply (reach_init tape tape 1 1 1 0). vm_compute. reflexivity.
  - reflexivity.
  - reflexivity.
Defined.

(** X13 ([MoneyAgent.move]).  On a torus a move that returns has put the
    agent on a cell of its neighbourhood other than the one it stood on:
    only the position of that agent changed, it is listed in the new cell
    and no longer in the old one. *)
Theorem move_changes_cell {R G} (m m' : Model R G) (self : AgentId) :
  torus (grid m) = true → 0 < width (grid m) → 0 < height (grid m) →
  MoneyAgent_move self m = (inr (), m') →
  ∃ ag p q,
    agents m !! self = Some ag ∧ pos ag = Some p ∧
    q ∈ get_neighborhood (grid m) p false 1 ∧ q ≠ p ∧
    agents m' = <[self := mkAgent (Some q) (wealth ag)]> (agents m) ∧
    self ∈ contents (grid m') q ∧ self ∉ contents (grid m') p.
Proof.
  intros Ht Hw Hh Hmove.
  destruct (MoneyAgent_move_cases _ _ _ _ Ht Hw Hh Hmove)
    as [(e & ? & _)|(ag & p & q & g' & _ & Hs & Hp & Hq & Hne & _ & ->)];
    [done|].
  exists ag, p, q. repeat (split; [done|]). simpl. unfold vacate. rewrite Hp.
  split.
  - apply elem_of_cell_add. by right.
  - rewrite elem_of_cell_add, elem_of_cell_remove. naive_solver.
Qed.

Lemma move_changes_cell_witness :
  ∃ ag p q,
    agents crowded !! 0%nat = Some ag ∧ pos ag = Some p ∧
    q ∈ get_neighborhood (grid crowded) p false 1 ∧ q ≠ p ∧
    agents (MoneyAgent_move 0 crowded).2
      = <[0%nat := mkAgent (Some q) (wealth ag)]> (agents crowded) ∧
    0%nat ∈ contents (grid (MoneyAgent_move 0 crowded).2) q ∧
    0%nat ∉ contents (grid (MoneyAgent_move 0 crowded).2) p.
Proof.
  apply (move_changes_cell crowded (MoneyAgent_move 0 crowded).2 0%nat).
  - reflexivity.
  - simpl. lia.
  - simpl. lia.
  - vm_compute. reflexivity.
Defined.

(** X14 (length of the series).  For a model on a grid with more than one
    column or row, after k calls to [step] each of the two collected
    series has exactly k + 1 entries. *)
Theorem series_length {R G} n w h seed (m : Model R G) (k : nat) :
  MoneyModel_init R G n w h seed = inr m → 2 ≤ w ∨ 2 ≤ h →
  length (model_vars (datacollector (after_steps k m))) = S k ∧
  length (agent_vars (datacollector (after_steps k m))) = S k.
Proof.
  intros Hinit Hbig. induction k as [|k [IH1 IH2]].
  - change (after_steps 0 m) with m.
    destruct (init_series _ _ _ _ _ Hinit) as (v & _ & -> & ->). done.
  - assert (reachable (after_steps k m)) as Hk
      by (apply reachable_after_steps; by eapply reach_init).
    destruct (step_returns (after_steps k m) Hk (reachable_wf _ Hk)) as [m' Hm'].
    { pose proof (steps_shape k m) as Hs.
      rewrite (init_shape _ _ _ _ _ Hinit) in Hs. by injection Hs as -> -> _. }
    destruct (step_returns_series _ _ Hm') as [H1 H2].
    change (after_steps (S k) m) with (after_step (after_steps k m)).
    unfold after_step. rewrite Hm'. simpl. lia.
Qed.

Lemma series_length_witness :
  length (model_vars (datacollector (after_steps 3 crowded))) = 4%nat ∧
  length (agent_vars (datacollector (after_steps 3 crowded))) = 4%nat.
Proof.
  apply (series_length (R:=tape) (G:=tape) 2 10 10 0 crowded 3).
  - vm_compute. reflexivity.
  - left. lia.
Defined.

Lemma every_step_returns {R G} n w h seed (m : Model R G) (k : nat) :
  MoneyModel_init R G n w h seed = inr m → 2 ≤ w ∨ 2 ≤ h →
  ∃ m', MoneyModel_step (after_steps k m) = (inr (), m').
Proof.
  intros Hinit Hbig.
  assert (reachable (after_steps k m)) as Hk
    by (apply reachable_after_steps; by eapply reach_init).
  apply (step_returns _ Hk (reachable_wf _ Hk)).
  pose proof (steps_shape k m) as Hs.
  rewrite (init_shape _ _ _ _ _ Hinit) in Hs. by injection Hs as -> -> _.
Qed.

(** X15 ([model_params]).  For every number of agents the slider allows
    (10 to 100) and the fixed 10 x 10 grid, the constructor returns for
    every seed, and every later call to [step] returns. *)
Theorem dashboard_models_run {R G} (n : nat) (seed : Z) :
  (slider_min (param_n model_params) ≤ n ≤ slider_max (param_n model_params))%nat →
  ∃ m : Model R G,
    MoneyModel_init R G n (param_width model_params)
      (param_height model_params) seed = inr m ∧
    ∀ k, ∃ m', MoneyModel_step (after_steps k m) = (inr (), m').
Proof.
  simpl. intros Hn.
  destruct (init_returns (R:=R) (G:=G) n 10 10 seed) as (m & Hm & _); try lia.
  exists m. split; [done|]. intros k.
  eapply every_step_returns; [done|]. left. lia.
Qed.

Lemma dashboard_models_run_witness :
  ∃ m : Model tape tape,
    MoneyModel_init tape tape 50 10 10 7 = inr m ∧
    ∀ k, ∃ m', MoneyModel_step (after_steps k m) = (inr (), m').
Proof.
  apply (dashboard_models_run (R:=tape) (G:=tape) 50 7). simpl. lia.
Defined.

(** X16 ([MoneyModel.step]).  After a call to [step] that returns from a
    reachable state, every agent stands on a cell other than the one it
    stood on before the call. *)
Theorem tick_moves_every_agent {R G} (m m' : Model R G) :
  reachable m → MoneyModel_step m = (inr (), m') →
  ∀ a ag ag', agents m !! a = Some ag → agents m' !! a = Some ag' →
              pos ag' ≠ pos ag.
Proof.
  intros [(Ht & Hw & Hh & _) _]%reachable_wf Hstep a ag ag' Hag Hag'.
  rewrite step_unfold in Hstep. unfold bind in Hstep.
  destruct (for_each (activation_order m) MoneyAgent_step _)
    as [[e|[]] m1] eqn:Hfor; [done|].
  apply collect_inv in Hstep as (v & _ & ->). simpl in Hag'.
  destruct (for_each_step_pos (activation_order m)
              (set_random (shuffle R (seq 0 (length (agents m))) (random m)).2 m)
              m1 Ht Hw Hh (activation_order_NoDup m) Hfor)
    as [Hin _].
  specialize (Hin a). simpl in Hin.
  rewrite !list_lookup_fmap, Hag, Hag' in Hin. simpl in Hin.
  intros Heq. apply Hin; [|by rewrite Heq].
  apply elem_of_activation_order. by eapply lookup_lt_Some.
Qed.

Lemma tick_moves_every_agent_witness :
  reachable crowded ∧
  ∀ a ag ag', agents crowded !! a = Some ag →
              agents (after_step crowded) !! a = Some ag' →
              pos ag' ≠ pos ag.
Proof.
  split.
  - apply (reach_init tape tape 2 10 10 0). vm_compute. reflexivity.
  - apply (tick_moves_every_agent crowded (after_step crowded)).
    + apply (reach_init tape tape 2 10 10 0). vm_compute. reflexivity.
    + vm_compute. reflexivity.
Defined.

(** X17 ([MoneyModel.step]).  One call to [step], returning or raising,
    costs an agent at most one unit of wealth. *)
Theorem tick_costs_at_most_one {R G} (m : Model R G) (a : AgentId) ag ag' :
  agents m !! a = Some ag → agents (after_step m) !! a = Some ag' →
  wealth ag - 1 ≤ wealth ag'.
Proof.
  intros Hag Hag'. unfold after_step in Hag'.
  rewrite step_unfold, bind_collect_agents in Hag'.
  pose proof (for_each_step_lower (activation_order m)
                (set_random (shuffle R (seq 0 (length (agents m))) (random m)).2 m)
                a ag ag' (activation_order_NoDup m) Hag Hag') as H.
  case_decide; lia.
Qed.

Lemma tick_costs_at_most_one_witness :
  agents (after_step narrow) !! 1%nat = Some (mkAgent (Some (1, 0)) 1) ∧
  1 - 1 ≤ wealth (mkAgent (Some (1, 0)) 1).
Proof.
  assert (agents (after_step narrow) !! 1%nat = Some (mkAgent (Some (1, 0)) 1))
    as H by (vm_compute; reflexivity).
  split; [exact H|].
  apply (tick_costs_at_most_one narrow 1%nat (mkAgent (Some (0, 0)) 1)
           (mkAgent (Some (1, 0)) 1)); [reflexivity | exact H].
Defined.

(** X18 ([MoneyAgent.move]).  A move, returning or raising, changes no
    wealth, adds or removes no agent and writes nothing to the collector. *)
Theorem move_keeps_wealth {R G} (m : Model R G) (self : AgentId) :
  wealths (MoneyAgent_move self m).2 = wealths m ∧
  length (agents (MoneyAgent_move self m).2) = length (agents m) ∧
  datacollector (MoneyAgent_move self m).2 = datacollector m.
Proof.
  split; [apply keeps_MoneyAgent_move|]. split.
  - assert (keeps (R:=R) (G:=G) (λ m, length (agents m))
              (MoneyAgent_move self)) as H by frame.
    apply H.
  - assert (keeps (R:=R) (G:=G) datacollector (MoneyAgent_move self)) as H
      by frame.
    apply H.
Qed.

(** X19 ([MoneyAgent.give_money]).  A transfer, returning or raising,
    changes no position and no cell of the grid, and adds or removes no
    agent. *)
Theorem give_money_keeps_places {R G} (m : Model R G) (self : AgentId) :
  grid (MoneyAgent_give_money self m).2 = grid m ∧
  pos <$> agents (MoneyAgent_give_money self m).2 = pos <$> agents m ∧
  length (agents (MoneyAgent_give_money self m).2) = length (agents m).
Proof.
  pose proof (give_money_frame self m) as [= Hg Hp].
  split; [done|]. split; [done|].
  by rewrite <- (length_fmap pos), Hp, length_fmap.
Qed.
